(** * Ring hash load balancer: the ring and its lookup

    A shallow embedding of [RingHashLoadBalancer::Ring] from
    [source/common/upstream/ring_hash_lb.cc]: the constructor that builds the
    ring (and, under the [shard_ringhash] runtime feature, the shard index)
    and [chooseHost], the ketama binary search; and of the part of the two
    constructors of [RingHashLoadBalancer] that reads and validates the
    configuration.

    Conventions of the embedding.
    - [uint64_t], [int64_t] and [uint32_t] values are integers in [Z]; the
      places where the source relies on the range of a type are written out
      ([to_u64]).  The signed search indices never leave the [int64_t] range
      for any vector that fits in memory, so they are not wrapped.
    - [operator[]] on a [std::vector] outside its range is undefined behaviour;
      the embedding makes it the outcome [Undefined].
    - The [while] loops run on fuel computed from the loop state: the search
      on the width of its window, the halving loop on the 64 bits of a hash,
      the inner loop of the constructor on [ceil(target_hashes)].  The fuel
      is shown to be enough for the first two, and for the third in exact
      arithmetic; on doubles the third loop does not end once
      [current_hashes + 1] rounds back to [current_hashes], and the outcome
      is then [OutOfFuel].
    - [double] arithmetic is a parameter of the constructor ([DoubleArith]).
      [Binary64.arith] is IEEE-754 double precision on the primitive floats,
      each operation rounded on its own: the arithmetic the code runs on.
      [Exact.arith] is arithmetic on the rationals without rounding.
    - [xxHash64], [murmurHash2], [hashKey] and the initial value of the member
      [rshift_to_shard] are declared outside this file; they are parameters.
    - The embedding is of a build without debug assertions and without trace
      logging: [ASSERT(!key_to_hash.empty())] and the [ENVOY_LOG] lines have
      no counterpart.  [hash_key_buffer] is the string that it holds when the
      hash is taken, the iterator [offset_start] being taken to stay valid
      across the insertions. *)

From Stdlib Require Import ZArith List Lia Bool String Ascii.
From Stdlib Require Import QArith Qround Lqa.
From Stdlib Require Import Sorted Permutation.
From Stdlib Require Import DecimalString DecimalN.
From Stdlib Require PrimFloat FloatOps SpecFloat Uint63 FloatAxioms.
Import ListNotations.

Local Open Scope Z_scope.

(** ** Outcomes of a run *)

Inductive outcome (A : Type) : Type :=
| Ret (a : A)      (* the code returns [a] *)
| Undefined        (* a vector is read outside its range *)
| OutOfFuel.       (* the fuel of a loop ran out (never the case, see the totality lemmas) *)

Arguments Ret {A} a.
Arguments Undefined {A}.
Arguments OutOfFuel {A}.

Definition bind {A B : Type} (m : outcome A) (k : A -> outcome B) : outcome B :=
  match m with
  | Ret a => k a
  | Undefined => Undefined
  | OutOfFuel => OutOfFuel
  end.

Notation "x <- m ;; k" := (bind m (fun x => k))
  (at level 61, m at next level, right associativity).

(** ** Machine integers *)

Definition two64 : Z := 2 ^ 64.

(** Conversion to [uint64_t]. *)
Definition to_u64 (z : Z) : Z := z mod two64.

Definition is_u64 (z : Z) : Prop := 0 <= z < two64.

(** [v.size()] *)
Definition vec_size {A : Type} (v : list A) : Z := Z.of_nat (List.length v).

(** [v[i]] on a vector: defined only inside the range. *)
Definition vec_at {A : Type} (v : list A) (i : Z) : outcome A :=
  if (0 <=? i) && (i <? vec_size v) then
    match nth_error v (Z.to_nat i) with
    | Some a => Ret a
    | None => Undefined
    end
  else Undefined.

(** ** Data model *)

Section RingModel.

Variable Host : Type.

(** [struct RingEntry { uint64_t hash_; HostConstSharedPtr host_; }] *)
Record RingEntry : Type := mkRingEntry {
  hash_ : Z;
  host_ : Host
}.

(** The members of [Ring] that the constructor fills and [chooseHost] reads. *)
Record Ring : Type := mkRing {
  ring_ : list RingEntry;
  ring_shard_ : list Z;
  rshift_to_shard : Z
}.

(** ** chooseHost *)

(** The shard index of a hash, lines 101-108: the split shift, then the
    recomputation taken when bit 63 of [h] is set. *)
Definition plain_shard_index (rshift h : Z) : Z :=
  Z.shiftr (Z.shiftr h (rshift - 1)) 1.

Definition msb_shard_index (rshift h : Z) : Z :=
  Z.shiftr
    (Z.lor (Z.shiftr (Z.land h 0x7FFFFFFFFFFFFFFF) 1) 0x4000000000000000)
    (rshift - 1).

Definition shard_index_of (rshift h : Z) : Z :=
  let shard_index := plain_shard_index rshift h in
  let h_msb := Z.land h 0x8000000000000000 in
  if negb (h_msb =? 0) then msb_shard_index rshift h else shard_index.

(** The [while (true)] loop of lines 121-146.  The result is the value of
    [midp] when the loop is left. *)
Fixpoint search_loop (fuel : nat) (ring : list RingEntry) (h lowp highp : Z)
  : outcome Z :=
  match fuel with
  | O => OutOfFuel
  | S fuel' =>
      let midp := Z.quot (lowp + highp) 2 in
      if midp =? vec_size ring then Ret 0
      else
        e <- vec_at ring midp ;;
        let midval := hash_ e in
        midval1 <- (if midp =? 0 then Ret 0
                    else e1 <- vec_at ring (midp - 1) ;; Ret (hash_ e1)) ;;
        if (h <=? midval) && (midval1 <? h) then Ret midp
        else
          let lowp' := if midval <? h then midp + 1 else lowp in
          let highp' := if midval <? h then highp else midp - 1 in
          if highp' <? lowp' then Ret 0
          else search_loop fuel' ring h lowp' highp'
  end.

(** Fuel for the search: one more than the width of the window. *)
Definition search_fuel (lowp highp : Z) : nat := S (Z.to_nat (highp - lowp + 1)).

(** The window of the search, lines 97-118: the shard of [h] under the
    runtime feature, the whole ring otherwise. *)
Definition search_window (shard_ringhash : bool) (r : Ring) (h : Z)
  : outcome (Z * Z) :=
  if shard_ringhash then
    let shard_index := shard_index_of (rshift_to_shard r) h in
    lowp <- vec_at (ring_shard_ r) shard_index ;;
    highp <- vec_at (ring_shard_ r) (shard_index + 1) ;;
    Ret (lowp, highp)
  else Ret (0, vec_size (ring_ r)).

(** The index [midp] that the search leaves, before the retry offset. *)
Definition choose_midp (shard_ringhash : bool) (r : Ring) (h : Z) : outcome Z :=
  w <- search_window shard_ringhash r h ;;
  search_loop (search_fuel (fst w) (snd w)) (ring_ r) h (fst w) (snd w).

(** [HostConstSharedPtr Ring::chooseHost(uint64_t h, uint32_t attempt) const];
    [None] is [nullptr]. *)
Definition chooseHost (shard_ringhash : bool) (r : Ring) (h attempt : Z)
  : outcome (option Host) :=
  match ring_ r with
  | [] => Ret None
  | _ :: _ =>
      midp <- choose_midp shard_ringhash r h ;;
      let midp' :=
        if 0 <? attempt then to_u64 (midp + attempt) mod vec_size (ring_ r)
        else midp in
      e <- vec_at (ring_ r) midp' ;;
      Ret (Some (host_ e))
  end.

End RingModel.

Arguments mkRingEntry {Host} _ _.
Arguments hash_ {Host} _.
Arguments host_ {Host} _.
Arguments mkRing {Host} _ _ _.
Arguments ring_ {Host} _.
Arguments ring_shard_ {Host} _.
Arguments rshift_to_shard {Host} _.
Arguments search_loop {Host} _ _ _ _ _.
Arguments search_window {Host} _ _ _.
Arguments choose_midp {Host} _ _ _.
Arguments chooseHost {Host} _ _ _ _.

(** ** Arithmetic on [double]

    The constructor computes with [double].  Its embedding takes the
    arithmetic as a structure, with two instances: [binary64], the IEEE-754
    double precision arithmetic of the machine, which is what the code runs
    on, and [exact], arithmetic on the rationals without rounding, which is
    what the comments of the constructor reason in. *)

Record DoubleArith : Type := mkDoubleArith {
  double : Type;
  d_of_u64 : Z -> double;                 (* the conversion of a [uint64_t] *)
  d_to_u64 : double -> Z;                 (* the conversion to [uint64_t] *)
  d_add : double -> double -> double;
  d_mul : double -> double -> double;
  d_div : double -> double -> double;
  d_ceil : double -> double;              (* [std::ceil] *)
  d_lt : double -> double -> bool         (* [<] *)
}.

(** *** IEEE-754 double precision

    The operations are the primitive binary64 operations, each rounded to
    nearest even on its own.  [std::ceil] and the conversions go through the
    decoding of a float into sign, mantissa and exponent. *)

Module Binary64.

(** The integer of least absolute value that is not below [x]; 0 when [x] is
    not finite. *)
Definition ceil_Z (x : PrimFloat.float) : Z :=
  match FloatOps.Prim2SF x with
  | SpecFloat.S754_finite s m e =>
      let v := if s then Z.neg m else Z.pos m in
      if 0 <=? e then v * 2 ^ e else - ((- v) / 2 ^ (- e))
  | _ => 0
  end.

(** [x] with its fraction dropped; 0 when [x] is not finite. *)
Definition trunc_Z (x : PrimFloat.float) : Z :=
  match FloatOps.Prim2SF x with
  | SpecFloat.S754_finite s m e =>
      let v := if s then Z.neg m else Z.pos m in
      if 0 <=? e then v * 2 ^ e else Z.quot v (2 ^ (- e))
  | _ => 0
  end.

(** The float nearest to a [uint64_t].  Above [2^63] the halved value is
    converted, its lowest bit keeping track of the bit that was dropped. *)
Definition of_u64 (z : Z) : PrimFloat.float :=
  if z <? 2 ^ 63 then PrimFloat.of_uint63 (Uint63.of_Z z)
  else PrimFloat.mul
         (PrimFloat.of_uint63 (Uint63.of_Z (Z.lor (z / 2) (z mod 2))))
         (PrimFloat.of_uint63 (Uint63.of_Z 2)).

(** [std::ceil]: a float with a non-negative exponent is whole already. *)
Definition ceil (x : PrimFloat.float) : PrimFloat.float :=
  match FloatOps.Prim2SF x with
  | SpecFloat.S754_finite s m e =>
      if 0 <=? e then x
      else if ceil_Z x <? 0
           then PrimFloat.opp (PrimFloat.of_uint63 (Uint63.of_Z (- ceil_Z x)))
           else PrimFloat.of_uint63 (Uint63.of_Z (ceil_Z x))
  | _ => x
  end.

Definition arith : DoubleArith :=
  mkDoubleArith PrimFloat.float of_u64 trunc_Z
    PrimFloat.add PrimFloat.mul PrimFloat.div ceil PrimFloat.ltb.

End Binary64.

(** A double that is finite and above 0, as a normalized weight is. *)
Definition finite_positive (x : PrimFloat.float) : bool :=
  match FloatOps.Prim2SF x with
  | SpecFloat.S754_finite false _ _ => true
  | _ => false
  end.

(** A decoded double that is not below 0: a zero, a NaN, or a finite or
    infinite value of positive sign. *)
Definition not_negative (s : SpecFloat.spec_float) : Prop :=
  match s with
  | SpecFloat.S754_finite true _ _ | SpecFloat.S754_infinity true => False
  | _ => True
  end.

(** *** Exact arithmetic *)

Module Exact.

Definition lt (a b : Q) : bool := if Qlt_le_dec a b then true else false.

Definition trunc_Z (x : Q) : Z := Z.quot (Qnum x) (Z.pos (Qden x)).

Definition ceil (x : Q) : Q := inject_Z (Qceiling x).

Definition arith : DoubleArith :=
  mkDoubleArith Q inject_Z trunc_Z Qplus Qmult Qdiv ceil lt.

End Exact.

(** ** The constructor *)

(** [envoy::config::cluster::v3::Cluster::RingHashLbConfig::HashFunction] *)
Inductive HashFunction : Type :=
| XX_HASH
| MURMUR_HASH_2.

(** The gauges of [RingHashLoadBalancerStats]. *)
Inductive Gauge : Type :=
| size_
| min_hashes_per_host_
| max_hashes_per_host_.

(** [absl::StrCat("", i)]: the decimal digits of [i]. *)
Definition StrCat_u64 (i : Z) : string :=
  NilEmpty.string_of_uint (N.to_uint (Z.to_N i)).

(** The contents of [hash_key_buffer] inside the inner loop: the key, an
    underscore and the decimal digits of [i]. *)
Definition hash_key_of (key_to_hash : string) (i : Z) : string :=
  (key_to_hash ++ "_" ++ StrCat_u64 i)%string.

Section RingBuilder.

Variable D : DoubleArith.
Variable Host : Type.

(** [hashKey(host, use_hostname_for_hashing)]: the host name or the address. *)
Variable hashKey : Host -> bool -> string.

(** [HashUtil::xxHash64(key)] and
    [MurmurHash::murmurHash2(key, MurmurHash::STD_HASH_SEED)]. *)
Variable xxHash64 : string -> Z.
Variable murmurHash2 : string -> Z.

(** The value the member [rshift_to_shard] has when the constructor starts. *)
Variable rshift_to_shard_init : Z.

(** [std::min(a, b)] on doubles: [b] when [b < a], else [a]. *)
Definition std_min (a b : double D) : double D := if d_lt D b a then b else a.

(** The [scale] of lines 176-178:
    [std::min(std::ceil(min_normalized_weight * min_ring_size) / min_normalized_weight,
              static_cast<double>(max_ring_size))]. *)
Definition ring_scale (min_normalized_weight : double D)
    (min_ring_size max_ring_size : Z) : double D :=
  std_min
    (d_div D
       (d_ceil D (d_mul D min_normalized_weight (d_of_u64 D min_ring_size)))
       min_normalized_weight)
    (d_of_u64 D max_ring_size).

(** Lines 227-230, the result being a [uint64_t]. *)
Definition hash_of (hash_function : HashFunction) (hash_key : string) : Z :=
  to_u64 (match hash_function with
          | MURMUR_HASH_2 => murmurHash2 hash_key
          | XX_HASH => xxHash64 hash_key
          end).

(** The inner [while (current_hashes < target_hashes)] loop, lines 220-237.
    The state is [(ring_, current_hashes, i)]. *)
Fixpoint place_hashes (fuel : nat) (hash_function : HashFunction) (host : Host)
    (key_to_hash : string) (target_hashes : double D)
    (ring : list (RingEntry Host)) (current_hashes : double D) (i : Z)
  : outcome (list (RingEntry Host) * double D * Z) :=
  if d_lt D current_hashes target_hashes then
    match fuel with
    | O => OutOfFuel
    | S fuel' =>
        let hash := hash_of hash_function (hash_key_of key_to_hash i) in
        place_hashes fuel' hash_function host key_to_hash target_hashes
          (ring ++ [mkRingEntry hash host])
          (d_add D current_hashes (d_of_u64 D 1)) (i + 1)
    end
  else Ret (ring, current_hashes, i).

(** Fuel for the inner loop: [ceil(target_hashes)], the number of steps of 1
    from 0 that reach [target_hashes]. *)
Definition place_fuel (target_hashes : double D) : nat :=
  Z.to_nat (d_to_u64 D (d_ceil D target_hashes)).

(** The local variables of the constructor that live across hosts. *)
Record BuildState : Type := mkBuildState {
  bs_ring : list (RingEntry Host);
  bs_current_hashes : double D;
  bs_target_hashes : double D;
  bs_min_hashes_per_host : Z;
  bs_max_hashes_per_host : Z
}.

(** One iteration of the [for] loop over [normalized_host_weights], lines
    207-240; the second component is the final [i], the number of hashes
    placed for this host. *)
Definition host_step (scale : double D) (hash_function : HashFunction)
    (use_hostname_for_hashing : bool) (st : BuildState) (entry : Host * double D)
  : outcome (BuildState * Z) :=
  let host := fst entry in
  let key_to_hash := hashKey host use_hostname_for_hashing in
  let target_hashes := d_add D (bs_target_hashes st) (d_mul D scale (snd entry)) in
  placed <- place_hashes (place_fuel target_hashes)
              hash_function host key_to_hash target_hashes
              (bs_ring st) (bs_current_hashes st) 0 ;;
  let '(ring, current_hashes, i) := placed in
  Ret (mkBuildState ring current_hashes target_hashes
         (Z.min i (bs_min_hashes_per_host st))
         (Z.max i (bs_max_hashes_per_host st)), i).

(** The whole [for] loop. *)
Fixpoint populate (scale : double D) (hash_function : HashFunction)
    (use_hostname_for_hashing : bool) (st : BuildState)
    (normalized_host_weights : list (Host * double D)) : outcome BuildState :=
  match normalized_host_weights with
  | [] => Ret st
  | entry :: rest =>
      stepped <- host_step scale hash_function use_hostname_for_hashing st entry ;;
      populate scale hash_function use_hostname_for_hashing (fst stepped) rest
  end.

(** The successive values of [i] at line 238, one per host in input order. *)
Fixpoint hashes_per_host (scale : double D) (hash_function : HashFunction)
    (use_hostname_for_hashing : bool) (st : BuildState)
    (normalized_host_weights : list (Host * double D)) : outcome (list Z) :=
  match normalized_host_weights with
  | [] => Ret []
  | entry :: rest =>
      stepped <- host_step scale hash_function use_hostname_for_hashing st entry ;;
      counts <- hashes_per_host scale hash_function use_hostname_for_hashing
                  (fst stepped) rest ;;
      Ret (snd stepped :: counts)
  end.

(** [std::sort] with the comparator [lhs.hash_ < rhs.hash_], as an insertion
    sort.  The order of entries with equal hashes is left open by
    [std::sort]; here they keep their insertion order. *)
Fixpoint insert_entry (e : RingEntry Host) (l : list (RingEntry Host))
  : list (RingEntry Host) :=
  match l with
  | [] => [e]
  | x :: l' => if hash_ x <? hash_ e then x :: insert_entry e l' else e :: l
  end.

Fixpoint sort_ring (l : list (RingEntry Host)) : list (RingEntry Host) :=
  match l with
  | [] => []
  | e :: l' => insert_entry e (sort_ring l')
  end.

(** The loop of lines 259-262 that counts the halvings of [n]. *)
Fixpoint msb_loop (fuel : nat) (n msb : Z) : Z * Z :=
  match fuel with
  | O => (n, msb)
  | S fuel' => if negb (n =? 0) then msb_loop fuel' (n / 2) (msb + 1) else (n, msb)
  end.

(** One iteration of the [for] loop of lines 281-291.  The state is
    [(ring_shard_, ring_index, prev_shard)]. *)
Definition shard_step (rshift : Z) (st : list Z * Z * Z) (entry : RingEntry Host)
  : list Z * Z * Z :=
  let '(ring_shard, ring_index, prev_shard) := st in
  let current_shard := Z.shiftr (Z.shiftr (hash_ entry) (rshift - 1)) 1 in
  if negb (current_shard =? prev_shard)
  then (ring_shard ++ [ring_index], ring_index + 1, current_shard)
  else (ring_shard, ring_index + 1, prev_shard).

(** The sharding block, lines 253-295: the new [ring_shard_] and
    [rshift_to_shard]. *)
Definition build_shards (ring : list (RingEntry Host)) (ring_size : Z)
  : outcome (list Z * Z) :=
  e0 <- vec_at ring 0 ;;
  let n := hash_ e0 in
  let n := n / 2 in
  let '(_, msb) := msb_loop 64 n 0 in
  let rshift :=
    if 64 <? rshift_to_shard_init + msb then 64 else rshift_to_shard_init + msb in
  let ring_index := 0 in
  let prev_shard := 0 in
  let '(ring_shard, ring_index) :=
    match ring with
    | [] => ([], ring_index)
    | _ :: _ => ([ring_index], ring_index + 1)
    end in
  let '(ring_shard, _, _) :=
    fold_left (shard_step rshift) ring (ring_shard, ring_index, prev_shard) in
  Ret (ring_shard ++ [ring_size], rshift).

(** The state of the constructor before the first host, lines 203-206. *)
Definition initial_state (ring_size : Z) : BuildState :=
  mkBuildState [] (d_of_u64 D 0) (d_of_u64 D 0) ring_size 0.

(** [Ring::Ring]: the ring that is built and the gauges that are set, in the
    order they are set.  [shard_ringhash] is the runtime feature
    [envoy.reloadable_features.shard_ringhash]. *)
Definition Ring_build (shard_ringhash : bool)
    (normalized_host_weights : list (Host * double D))
    (min_normalized_weight : double D)
    (min_ring_size max_ring_size : Z) (hash_function : HashFunction)
    (use_hostname_for_hashing : bool)
  : outcome (Ring Host * list (Gauge * Z)) :=
  match normalized_host_weights with
  | [] => Ret (mkRing [] [] rshift_to_shard_init, [])
  | _ :: _ =>
      let scale := ring_scale min_normalized_weight min_ring_size max_ring_size in
      let ring_size := d_to_u64 D (d_ceil D scale) in
      st <- populate scale hash_function use_hostname_for_hashing
              (initial_state ring_size) normalized_host_weights ;;
      let ring := sort_ring (bs_ring st) in
      sh <- (if shard_ringhash then build_shards ring ring_size
             else Ret ([], rshift_to_shard_init)) ;;
      Ret (mkRing ring (fst sh) (snd sh),
           [(size_, ring_size);
            (min_hashes_per_host_, bs_min_hashes_per_host st);
            (max_hashes_per_host_, bs_max_hashes_per_host st)])
  end.

End RingBuilder.

Arguments place_hashes D {Host}.
Arguments mkBuildState {D Host}.
Arguments bs_ring {D Host}.
Arguments bs_current_hashes {D Host}.
Arguments bs_target_hashes {D Host}.
Arguments bs_min_hashes_per_host {D Host}.
Arguments bs_max_hashes_per_host {D Host}.
Arguments host_step D {Host}.
Arguments populate D {Host}.
Arguments hashes_per_host D {Host}.
Arguments insert_entry {Host}.
Arguments sort_ring {Host}.
Arguments shard_step {Host}.
Arguments build_shards {Host}.
Arguments initial_state D {Host}.
Arguments Ring_build D {Host}.

(** ** The load balancer: configuration and validation

    The two constructors of [RingHashLoadBalancer], lines 19-78.  Each sets
    the members [min_ring_size_], [max_ring_size_], [hash_function_],
    [use_hostname_for_hashing_] and [hash_balance_factor_] from the
    configuration, and throws an [EnvoyException] when the minimum exceeds
    the maximum.  The base class [ThreadAwareLoadBalancerBase], the stats
    scope and the gauges of [generateStats] are initialised from arguments
    that the constructors pass on to code declared outside this file; they
    are not part of the embedding.

    A protobuf message is a record.  A field of a wrapper type or of a
    message type is an [option], [None] when the field is not set; the
    accessor of a message field that is not set returns the default
    instance. *)

(** What a constructor leaves: the object, or the exception it throws. *)
Inductive constructed (A : Type) : Type :=
| Constructed (object : A)
| Thrown (what : string).

Arguments Constructed {A} object.
Arguments Thrown {A} what.

(** [PROTOBUF_GET_WRAPPED_OR_DEFAULT(message, field, default_value)] on the
    field of a wrapper type. *)
Definition PROTOBUF_GET_WRAPPED_OR_DEFAULT (field : option Z) (default_value : Z) : Z :=
  match field with
  | Some value => value
  | None => default_value
  end.

(** [envoy::config::cluster::v3::Cluster::CommonLbConfig::ConsistentHashingLbConfig] *)
Record ConsistentHashingLbConfig : Type := mkConsistentHashingLbConfig {
  chl_use_hostname_for_hashing : bool;
  chl_hash_balance_factor : option Z
}.

Definition ConsistentHashingLbConfig_default : ConsistentHashingLbConfig :=
  mkConsistentHashingLbConfig false None.

(** The fields of [Cluster::CommonLbConfig] that the constructor reads for
    the members of this class. *)
Record CommonLbConfig : Type := mkCommonLbConfig {
  clc_consistent_hashing_lb_config : option ConsistentHashingLbConfig
}.

(** [envoy::config::cluster::v3::Cluster::RingHashLbConfig] *)
Record RingHashLbConfig : Type := mkRingHashLbConfig {
  rhl_minimum_ring_size : option Z;
  rhl_maximum_ring_size : option Z;
  rhl_hash_function : HashFunction
}.

(** The members that the constructors set. *)
Record RingHashLoadBalancer : Type := mkRingHashLoadBalancer {
  min_ring_size_ : Z;
  max_ring_size_ : Z;
  hash_function_ : HashFunction;
  use_hostname_for_hashing_ : bool;
  hash_balance_factor_ : Z
}.

(** The text of the exception, lines 47-48 and 75-76:
    [fmt::format("ring hash: minimum_ring_size ({}) > maximum_ring_size ({})", ...)]. *)
Definition ring_size_error (min_ring_size max_ring_size : Z) : string :=
  ("ring hash: minimum_ring_size (" ++ StrCat_u64 min_ring_size
   ++ ") > maximum_ring_size (" ++ StrCat_u64 max_ring_size ++ ")")%string.

Section LoadBalancer.

(** [DefaultMinRingSize] and [DefaultMaxRingSize], declared in the header. *)
Variables DefaultMinRingSize DefaultMaxRingSize : Z.

(** The hash functions of
    [envoy::extensions::load_balancing_policies::ring_hash::v3::RingHash],
    and [static_cast<HashFunction>] on them. *)
Variable RingHash_HashFunction : Type.
Variable static_cast_HashFunction : RingHash_HashFunction -> HashFunction.

(** [envoy::extensions::load_balancing_policies::ring_hash::v3::RingHash] *)
Record RingHash : Type := mkRingHash {
  rh_minimum_ring_size : option Z;
  rh_maximum_ring_size : option Z;
  rh_hash_function : RingHash_HashFunction;
  rh_use_hostname_for_hashing : bool;
  rh_hash_balance_factor : option Z;
  rh_consistent_hashing_lb_config : option ConsistentHashingLbConfig
}.

(** The body shared by the two constructors, lines 46-49 and 74-77. *)
Definition validate_ring_sizes (lb : RingHashLoadBalancer)
  : constructed RingHashLoadBalancer :=
  if max_ring_size_ lb <? min_ring_size_ lb
  then Thrown (ring_size_error (min_ring_size_ lb) (max_ring_size_ lb))
  else Constructed lb.

(** The constructor of lines 19-50, from the configuration of the cluster;
    [config] is the [OptRef] to the ring hash configuration. *)
Definition RingHashLoadBalancer_ctor (config : option RingHashLbConfig)
    (common_config : CommonLbConfig) : constructed RingHashLoadBalancer :=
  let consistent_hashing_lb_config :=
    match clc_consistent_hashing_lb_config common_config with
    | Some c => c
    | None => ConsistentHashingLbConfig_default
    end in
  validate_ring_sizes
    (mkRingHashLoadBalancer
       (match config with
        | Some c => PROTOBUF_GET_WRAPPED_OR_DEFAULT (rhl_minimum_ring_size c)
                      DefaultMinRingSize
        | None => DefaultMinRingSize
        end)
       (match config with
        | Some c => PROTOBUF_GET_WRAPPED_OR_DEFAULT (rhl_maximum_ring_size c)
                      DefaultMaxRingSize
        | None => DefaultMaxRingSize
        end)
       (match config with
        | Some c => rhl_hash_function c
        | None => XX_HASH
        end)
       (match clc_consistent_hashing_lb_config common_config with
        | Some c => chl_use_hostname_for_hashing c
        | None => false
        end)
       (PROTOBUF_GET_WRAPPED_OR_DEFAULT
          (chl_hash_balance_factor consistent_hashing_lb_config) 0)).

(** The constructor of lines 52-78, from the configuration of the load
    balancing policy. *)
Definition RingHashLoadBalancer_ctor_policy (config : RingHash)
  : constructed RingHashLoadBalancer :=
  validate_ring_sizes
    (mkRingHashLoadBalancer
       (PROTOBUF_GET_WRAPPED_OR_DEFAULT (rh_minimum_ring_size config)
          DefaultMinRingSize)
       (PROTOBUF_GET_WRAPPED_OR_DEFAULT (rh_maximum_ring_size config)
          DefaultMaxRingSize)
       (static_cast_HashFunction (rh_hash_function config))
       (match rh_consistent_hashing_lb_config config with
        | Some c => chl_use_hostname_for_hashing c
        | None => rh_use_hostname_for_hashing config
        end)
       (match rh_consistent_hashing_lb_config config with
        | Some c => PROTOBUF_GET_WRAPPED_OR_DEFAULT (chl_hash_balance_factor c) 0
        | None => PROTOBUF_GET_WRAPPED_OR_DEFAULT (rh_hash_balance_factor config) 0
        end)).

End LoadBalancer.

Arguments mkRingHash {RingHash_HashFunction}.
Arguments rh_minimum_ring_size {RingHash_HashFunction}.
Arguments rh_maximum_ring_size {RingHash_HashFunction}.
Arguments rh_hash_function {RingHash_HashFunction}.
Arguments rh_use_hostname_for_hashing {RingHash_HashFunction}.
Arguments rh_hash_balance_factor {RingHash_HashFunction}.
Arguments rh_consistent_hashing_lb_config {RingHash_HashFunction}.
Arguments RingHashLoadBalancer_ctor_policy DefaultMinRingSize DefaultMaxRingSize
  {RingHash_HashFunction}.

(** ** Notions used to state the properties *)

(** A ring as the constructor leaves it: ascending hashes, each a [uint64_t]. *)
Definition ring_sorted {Host : Type} (ring : list (RingEntry Host)) : Prop :=
  StronglySorted (fun a b => hash_ a <= hash_ b) ring.

Definition ring_u64 {Host : Type} (ring : list (RingEntry Host)) : Prop :=
  Forall (fun e => is_u64 (hash_ e)) ring.

(** The smallest index whose entry has a hash of at least [h]; the length of
    the ring when there is none. *)
Fixpoint first_at_least {Host : Type} (h : Z) (ring : list (RingEntry Host)) : nat :=
  match ring with
  | [] => O
  | e :: ring' => if h <=? hash_ e then O else S (first_at_least h ring')
  end.

(** The same, wrapped to 0 at the top of the ring. *)
Definition successor_index {Host : Type} (h : Z) (ring : list (RingEntry Host)) : nat :=
  let p := first_at_least h ring in
  if Nat.eqb p (List.length ring) then O else p.

(** The hash of the entry before index [p], taken as 0 before the first. *)
Definition prev_hash {Host : Type} (ring : list (RingEntry Host)) (p : nat) : Z :=
  match p with
  | O => 0
  | S p' => match nth_error ring p' with Some e => hash_ e | None => 0 end
  end.

(** The [n] entries of one host, numbered from [i]: the hashes of
    [key_i], [key_(i+1)], ... *)
Definition virtual_nodes {Host : Type} (xxHash64 murmurHash2 : string -> Z)
    (hash_function : HashFunction) (host : Host) (key_to_hash : string)
    (i : Z) (n : nat) : list (RingEntry Host) :=
  map (fun k => mkRingEntry
                  (hash_of xxHash64 murmurHash2 hash_function
                     (hash_key_of key_to_hash (i + Z.of_nat k)))
                  host)
      (seq 0 n).

(** The entries of all hosts in input order, given the number of entries of
    each. *)
Fixpoint host_blocks {Host W : Type} (hashKey : Host -> bool -> string)
    (xxHash64 murmurHash2 : string -> Z) (hash_function : HashFunction)
    (use_hostname_for_hashing : bool)
    (normalized_host_weights : list (Host * W)) (counts : list Z)
  : list (RingEntry Host) :=
  match normalized_host_weights, counts with
  | entry :: rest, n :: counts' =>
      virtual_nodes xxHash64 murmurHash2 hash_function (fst entry)
        (hashKey (fst entry) use_hostname_for_hashing) 0 (Z.to_nat n)
      ++ host_blocks hashKey xxHash64 murmurHash2 hash_function
           use_hostname_for_hashing rest counts'
  | _, _ => []
  end.

(** The sum of the weights of the input, in exact arithmetic. *)
Definition total_weight {Host : Type} (normalized_host_weights : list (Host * Q)) : Q :=
  fold_right (fun entry acc => (snd entry + acc)%Q) 0%Q normalized_host_weights.

(** The least and the greatest of a list of counts (0 for no counts). *)
Definition least (counts : list Z) : Z :=
  match counts with
  | [] => 0
  | n :: counts' => fold_right Z.min n counts'
  end.

Definition greatest (counts : list Z) : Z :=
  match counts with
  | [] => 0
  | n :: counts' => fold_right Z.max n counts'
  end.

(** The sum of a list of counts. *)
Definition sum_counts (counts : list Z) : Z := fold_right Z.add 0 counts.

(** In exact arithmetic, the state between two iterations of the loop over
    the hosts: [target_hashes] is not negative and [current_hashes] is its
    ceiling. *)
Definition caught_up {Host : Type} (st : BuildState Exact.arith Host) : Prop :=
  (0 <= bs_target_hashes st)%Q
  /\ (bs_current_hashes st == inject_Z (Qceiling (bs_target_hashes st)))%Q.

(** The value of [prev_shard] when the loop of lines 281-291 reaches the
    entry at index [k]: [prev_shard0] before the first entry, and afterwards
    the shifted hash of the entry before, which is what each iteration leaves
    in [prev_shard], whether it took the branch or not. *)
Definition prev_shard_at {Host : Type} (rshift prev_shard0 : Z)
    (ring : list (RingEntry Host)) (k : nat) : Z :=
  match k with
  | O => prev_shard0
  | S k' =>
      match nth_error ring k' with
      | Some e => plain_shard_index rshift (hash_ e)
      | None => 0
      end
  end.

(** ** A concrete instance of the parameters

    The runs on concrete hosts below need values for the parameters of the
    constructor.  Hosts are given by their name and address; [hashKey]
    selects one of them; [xxHash64] is the XXH64 function with seed 0, which
    [HashUtil::xxHash64] calls.  The runs select [XX_HASH] only, and the
    parameter for [murmurHash2] is not exercised by them. *)

Module Example.

Record Host : Type := mkHost {
  hostname : string;
  address : string
}.

Definition hashKey (host : Host) (use_hostname : bool) : string :=
  if use_hostname then hostname host else address host.

Definition PRIME64_1 : Z := 11400714785074694791.
Definition PRIME64_2 : Z := 14029467366897019727.
Definition PRIME64_3 : Z := 1609587929392839161.
Definition PRIME64_4 : Z := 9650029242287828579.
Definition PRIME64_5 : Z := 2870177450012600261.

Definition bytes_of (s : string) : list Z :=
  map (fun c => Z.of_N (N_of_ascii c)) (list_ascii_of_string s).

(** A little-endian read of the given bytes. *)
Definition read_le (bytes : list Z) : Z :=
  fold_right (fun b acc => b + 256 * acc) 0 bytes.

Definition rotl64 (x r : Z) : Z :=
  to_u64 (Z.lor (Z.shiftl x r) (Z.shiftr x (64 - r))).

Definition xxh_round (acc input : Z) : Z :=
  to_u64 (rotl64 (to_u64 (acc + input * PRIME64_2)) 31 * PRIME64_1).

Definition xxh_merge_round (acc val : Z) : Z :=
  to_u64 (Z.lxor acc (xxh_round 0 val) * PRIME64_1 + PRIME64_4).

(** The stripes of 32 bytes. *)
Fixpoint xxh_stripes (fuel : nat) (data : list Z) (v : Z * Z * Z * Z)
  : Z * Z * Z * Z * list Z :=
  match fuel with
  | O => (v, data)
  | S fuel' =>
      if (32 <=? List.length data)%nat then
        let '(v1, v2, v3, v4) := v in
        xxh_stripes fuel' (skipn 32 data)
          (xxh_round v1 (read_le (firstn 8 data)),
           xxh_round v2 (read_le (firstn 8 (skipn 8 data))),
           xxh_round v3 (read_le (firstn 8 (skipn 16 data))),
           xxh_round v4 (read_le (firstn 8 (skipn 24 data))))
      else (v, data)
  end.

(** The remaining words of 8 bytes. *)
Fixpoint xxh_words (fuel : nat) (data : list Z) (h : Z) : Z * list Z :=
  match fuel with
  | O => (h, data)
  | S fuel' =>
      if (8 <=? List.length data)%nat then
        let k1 := xxh_round 0 (read_le (firstn 8 data)) in
        xxh_words fuel' (skipn 8 data)
          (to_u64 (rotl64 (Z.lxor h k1) 27 * PRIME64_1 + PRIME64_4))
      else (h, data)
  end.

(** The remaining bytes, one at a time. *)
Definition xxh_bytes (data : list Z) (h : Z) : Z :=
  fold_left
    (fun h b => to_u64 (rotl64 (Z.lxor h (to_u64 (b * PRIME64_5))) 11 * PRIME64_1))
    data h.

Definition xxh_avalanche (h : Z) : Z :=
  let h := to_u64 (Z.lxor h (Z.shiftr h 33) * PRIME64_2) in
  let h := to_u64 (Z.lxor h (Z.shiftr h 29) * PRIME64_3) in
  Z.lxor h (Z.shiftr h 32).

Definition XXH64 (seed : Z) (input : string) : Z :=
  let data := bytes_of input in
  let len := List.length data in
  let '(h, rest) :=
    if (32 <=? len)%nat then
      let '(v1, v2, v3, v4, rest) :=
        xxh_stripes len data
          (to_u64 (seed + PRIME64_1 + PRIME64_2), to_u64 (seed + PRIME64_2),
           seed, to_u64 (seed - PRIME64_1)) in
      let h := to_u64 (rotl64 v1 1 + rotl64 v2 7 + rotl64 v3 12 + rotl64 v4 18) in
      (xxh_merge_round (xxh_merge_round (xxh_merge_round (xxh_merge_round h v1) v2) v3) v4,
       rest)
    else (to_u64 (seed + PRIME64_5), data) in
  let h := to_u64 (h + Z.of_nat len) in
  let '(h, rest) := xxh_words len rest h in
  let '(h, rest) :=
    if (4 <=? List.length rest)%nat then
      (to_u64 (rotl64 (Z.lxor h (to_u64 (read_le (firstn 4 rest) * PRIME64_1))) 23
               * PRIME64_2 + PRIME64_3),
       skipn 4 rest)
    else (h, rest) in
  xxh_avalanche (xxh_bytes rest h).

Definition xxHash64 (input : string) : Z := XXH64 0 input.

(** Not exercised: every run below selects [XX_HASH]. *)
Definition murmurHash2_unused (input : string) : Z := 0.

(** Modelled from the spec: the initial value of the member
    [rshift_to_shard], which is declared in the header; the specification
    fixes it to 9. *)
Definition rshift_to_shard_init : Z := 9.

(** The constructor on IEEE-754 doubles, and in exact arithmetic. *)
Definition build :=
  Ring_build Binary64.arith hashKey xxHash64 murmurHash2_unused rshift_to_shard_init.

Definition build_exact :=
  Ring_build Exact.arith hashKey xxHash64 murmurHash2_unused rshift_to_shard_init.

Definition host0 : Host := mkHost "host0" "10.0.0.1:80".
Definition host1 : Host := mkHost "host1" "10.0.0.2:80".
Definition host2 : Host := mkHost "host2" "10.0.0.3:80".
Definition host210 : Host := mkHost "host210" "10.0.0.210:80".

Import PrimFloat.

(** Doubles named for the statements below. *)
Definition half : PrimFloat.float := 0.5%float.
Definition quarter : PrimFloat.float := 0.25%float.
Definition one : PrimFloat.float := 1%float.
Definition six : PrimFloat.float := 6%float.
Definition twelve : PrimFloat.float := 12%float.
Definition fifth : PrimFloat.float := (1 / 5)%float.
Definition tenth : PrimFloat.float := (1 / 10)%float.
Definition five_tenths : PrimFloat.float := (5 / 10)%float.

(** Two hosts of equal weight. *)
Definition two_hosts : list (Host * PrimFloat.float) := [(host0, half); (host210, half)].

Definition two_hosts_exact : list (Host * Q) := [(host0, 1 # 2); (host210, 1 # 2)]%Q.

(** The ring built from them, hashed by host name, for
    [min_ring_size = max_ring_size = 2] with sharding: "host210_0" hashes to
    0x0037CCF6516F8264 and "host0_0" to 0xC8D37C183B62FA3B. *)
Definition two_hosts_ring : Ring Host :=
  mkRing [mkRingEntry 0x0037CCF6516F8264 host210;
          mkRingEntry 0xC8D37C183B62FA3B host0]
         [0; 2; 2] 62.

(** Three hosts whose weights are doubles that sum to 1, exactly and in
    double arithmetic: 1/3, 5/9 and the rest. *)
Definition third : PrimFloat.float := (1 / 3)%float.
Definition five_ninths : PrimFloat.float := (5 / 9)%float.
Definition rest_of_ninths : PrimFloat.float := (1 - five_ninths - third)%float.

Definition ninths : list (Host * PrimFloat.float) :=
  [(host0, third); (host1, five_ninths); (host2, rest_of_ninths)].

(** Three more: the rest, 1/4 and 2/3. *)
Definition two_thirds : PrimFloat.float := (2 / 3)%float.
Definition rest_of_twelfths : PrimFloat.float := (1 - quarter - two_thirds)%float.

Definition twelfths : list (Host * PrimFloat.float) :=
  [(host0, rest_of_twelfths); (host1, quarter); (host2, two_thirds)].

(** Weights as the caller normalizes them from the integer weights 4 and 1,
    and 4, 1 and 5. *)
Definition fifths : list (Host * PrimFloat.float) :=
  [(host0, (4 / 5)%float); (host1, fifth)].

Definition tenths : list (Host * PrimFloat.float) :=
  [(host0, (4 / 10)%float); (host1, tenth); (host2, five_tenths)].

(** The example in the comment of the constructor, lines 189-196: four hosts
    of weight 0.25 each, for [max_ring_size = 6]. *)
Definition four_hosts : list (Host * PrimFloat.float) :=
  [(host0, quarter); (host1, quarter); (host2, quarter); (host210, quarter)].

Definition four_hosts_exact : list (Host * Q) :=
  [(host0, 1 # 4); (host1, 1 # 4); (host2, 1 # 4); (host210, 1 # 4)]%Q.

(** The exact value of a finite double. *)
Definition Q_of_float (x : PrimFloat.float) : Q :=
  match FloatOps.Prim2SF x with
  | SpecFloat.S754_finite s m e =>
      let v := if s then Z.neg m else Z.pos m in
      if 0 <=? e then inject_Z (v * 2 ^ e)
      else (inject_Z v / inject_Z (2 ^ (- e)))%Q
  | _ => 0%Q
  end.

End Example.

(** * Properties *)

(** ** The shard index *)

Lemma u64_bits_high (h n : Z) : is_u64 h -> 64 <= n -> Z.testbit h n = false.
Proof.
  intros [Hlo Hhi] Hn.
  destruct (Z.eq_dec h 0) as [-> | Hnz]; [apply Z.bits_0 |].
  apply Z.bits_above_log2; [assumption |].
  assert (Z.log2 h < 64) by (apply Z.log2_lt_pow2; unfold two64 in Hhi; lia).
  lia.
Qed.

Lemma msb_mask_nonzero (h : Z) :
  Z.land h 0x8000000000000000 <> 0 <-> Z.testbit h 63 = true.
Proof.
  change 0x8000000000000000 with (2 ^ 63). split.
  - intros Hne. destruct (Z.testbit h 63) eqn:E; [reflexivity |].
    exfalso. apply Hne. apply Z.bits_inj'. intros n Hn.
    rewrite Z.land_spec, Z.bits_0, Z.pow2_bits_eqb by lia.
    destruct (Z.eqb_spec 63 n) as [<- | _];
      [rewrite E; reflexivity | apply andb_false_r].
  - intros Hb Hz.
    assert (Z.testbit (Z.land h (2 ^ 63)) 63 = false) as Hf
        by (rewrite Hz; apply Z.bits_0).
    rewrite Z.land_spec, Hb, Z.pow2_bits_true in Hf by lia. discriminate.
Qed.

(** With bit 63 set, clearing it, halving and setting bit 62 is halving. *)
Lemma msb_half (h : Z) :
  is_u64 h -> Z.testbit h 63 = true ->
  Z.lor (Z.shiftr (Z.land h 0x7FFFFFFFFFFFFFFF) 1) 0x4000000000000000
  = Z.shiftr h 1.
Proof.
  intros Hh Hb.
  change 0x7FFFFFFFFFFFFFFF with (Z.ones 63).
  change 0x4000000000000000 with (2 ^ 62).
  apply Z.bits_inj'. intros n Hn.
  rewrite Z.lor_spec, !Z.shiftr_spec, Z.land_spec by lia.
  rewrite Z.testbit_ones_nonneg, Z.pow2_bits_eqb by lia.
  destruct (Z.ltb_spec (n + 1) 63) as [Hlt | Hge].
  - destruct (Z.eqb_spec 62 n); [lia |].
    now rewrite andb_true_r, orb_false_r.
  - rewrite andb_false_r, orb_false_l.
    destruct (Z.eqb_spec 62 n) as [<- | Hne];
      [change (62 + 1) with 63; now rewrite Hb |].
    symmetry. apply u64_bits_high; [assumption | lia].
Qed.

Lemma plain_shard_index_shiftr (rshift h : Z) :
  plain_shard_index rshift h = Z.shiftr h rshift.
Proof.
  unfold plain_shard_index. rewrite Z.shiftr_shiftr by lia. f_equal. lia.
Qed.

Lemma msb_shard_index_shiftr (rshift h : Z) :
  is_u64 h -> 1 <= rshift -> Z.testbit h 63 = true ->
  msb_shard_index rshift h = Z.shiftr h rshift.
Proof.
  intros Hh Hr Hb. unfold msb_shard_index.
  rewrite msb_half by assumption.
  rewrite Z.shiftr_shiftr by lia. f_equal. lia.
Qed.

Lemma shard_index_of_shiftr (rshift h : Z) :
  is_u64 h -> 1 <= rshift -> shard_index_of rshift h = Z.shiftr h rshift.
Proof.
  intros Hh Hr. unfold shard_index_of. cbv zeta.
  destruct (Z.eqb_spec (Z.land h 0x8000000000000000) 0) as [_ | Hne]; simpl.
  - apply plain_shard_index_shiftr.
  - apply msb_shard_index_shiftr; try assumption. now apply msb_mask_nonzero.
Qed.

(** C10.  For a 64-bit hash [h] and a shift [rshift_to_shard] from 1 to 64,
    the shard index that [chooseHost] computes is [h >> rshift_to_shard]
    whichever branch is taken: when bit 63 of [h] is set, the special
    computation
    [(((h & 0x7FFFFFFFFFFFFFFF) >> 1) | 0x4000000000000000) >> (rshift_to_shard - 1)]
    equals the plain [(h >> (rshift_to_shard - 1)) >> 1], so the branch for
    the most significant bit never changes the result. *)
Theorem shard_index_msb_branch_is_plain_shift (h rshift : Z) :
  is_u64 h -> 1 <= rshift <= 64 ->
  shard_index_of rshift h = Z.shiftr h rshift
  /\ shard_index_of rshift h = plain_shard_index rshift h
  /\ (Z.land h 0x8000000000000000 <> 0 ->
      msb_shard_index rshift h = plain_shard_index rshift h).
Proof.
  intros Hh [Hr _]. repeat split.
  - now apply shard_index_of_shiftr.
  - rewrite plain_shard_index_shiftr. now apply shard_index_of_shiftr.
  - intros Hne. rewrite plain_shard_index_shiftr.
    apply msb_shard_index_shiftr; try assumption. now apply msb_mask_nonzero.
Qed.

Lemma shard_index_msb_branch_is_plain_shift_witness :
  shard_index_of 64 0xFFFFFFFFFFFFFFFF = Z.shiftr 0xFFFFFFFFFFFFFFFF 64
  /\ shard_index_of 64 0xFFFFFFFFFFFFFFFF = plain_shard_index 64 0xFFFFFFFFFFFFFFFF
  /\ (Z.land 0xFFFFFFFFFFFFFFFF 0x8000000000000000 <> 0 ->
      msb_shard_index 64 0xFFFFFFFFFFFFFFFF = plain_shard_index 64 0xFFFFFFFFFFFFFFFF).
Proof.
  apply (shard_index_msb_branch_is_plain_shift 0xFFFFFFFFFFFFFFFF 64).
  - unfold is_u64, two64. lia.
  - lia.
Defined.

(** ** Vector reads *)

Lemma vec_at_Ret {A : Type} (v : list A) (i : Z) (a : A) :
  vec_at v i = Ret a <-> 0 <= i < vec_size v /\ nth_error v (Z.to_nat i) = Some a.
Proof.
  unfold vec_at.
  destruct (Z.leb_spec 0 i), (Z.ltb_spec i (vec_size v)); simpl;
    try (split; [discriminate | lia]).
  destruct (nth_error v (Z.to_nat i)) eqn:E.
  - split; [intros [= ->]; auto with zarith | intros [_ [= ->]]; reflexivity].
  - split; [discriminate | intros [_ [=]]].
Qed.

Lemma vec_at_in_range {A : Type} (v : list A) (i : Z) :
  0 <= i < vec_size v -> exists a, vec_at v i = Ret a.
Proof.
  intros Hi. destruct (nth_error v (Z.to_nat i)) eqn:E.
  - exists a. apply vec_at_Ret. auto.
  - apply nth_error_None in E. unfold vec_size in Hi. lia.
Qed.

Lemma vec_at_of_nat {A : Type} (v : list A) (n : nat) (a : A) :
  nth_error v n = Some a -> vec_at v (Z.of_nat n) = Ret a.
Proof.
  intros E. apply vec_at_Ret. rewrite Nat2Z.id. split; [| assumption].
  assert (n < List.length v)%nat by (apply nth_error_Some; congruence).
  unfold vec_size. lia.
Qed.

(** ** The search without sharding *)

Section Lookup.

Context {Host : Type}.
Implicit Types (ring : list (RingEntry Host)) (r : Ring Host) (e : RingEntry Host).

Lemma ring_sorted_nth ring (i j : nat) e e' :
  ring_sorted ring -> (i <= j)%nat ->
  nth_error ring i = Some e -> nth_error ring j = Some e' ->
  hash_ e <= hash_ e'.
Proof.
  intros Hs. revert i j. induction Hs as [| x l Hl IH Hx]; intros i j Hij Hi Hj.
  - destruct i; discriminate.
  - destruct i as [| i], j as [| j]; simpl in *; try lia.
    + injection Hi as <-. injection Hj as <-. lia.
    + injection Hi as <-. apply nth_error_In in Hj.
      rewrite Forall_forall in Hx. now apply Hx.
    + apply (IH i j); auto with arith.
Qed.

Lemma first_at_least_le_length h ring :
  (first_at_least h ring <= List.length ring)%nat.
Proof.
  induction ring as [| x l IH]; simpl; [lia |].
  destruct (h <=? hash_ x); lia.
Qed.

Lemma first_at_least_below h ring (j : nat) e :
  (j < first_at_least h ring)%nat -> nth_error ring j = Some e -> hash_ e < h.
Proof.
  revert j. induction ring as [| x l IH]; intros j Hj He; simpl in *; [lia |].
  destruct (Z.leb_spec h (hash_ x)); [lia |].
  destruct j as [| j]; simpl in He.
  - injection He as <-. assumption.
  - apply (IH j); [lia | assumption].
Qed.

Lemma first_at_least_hit h ring e :
  nth_error ring (first_at_least h ring) = Some e -> h <= hash_ e.
Proof.
  induction ring as [| x l IH]; simpl; [discriminate |].
  destruct (Z.leb_spec h (hash_ x)); simpl.
  - intros [= <-]. assumption.
  - assumption.
Qed.

Lemma first_at_least_above h ring (j : nat) e :
  ring_sorted ring -> (first_at_least h ring <= j)%nat ->
  nth_error ring j = Some e -> h <= hash_ e.
Proof.
  intros Hs Hj He.
  assert (first_at_least h ring < List.length ring)%nat as Hlt.
  { assert (j < List.length ring)%nat by (apply nth_error_Some; congruence). lia. }
  apply nth_error_Some in Hlt.
  destruct (nth_error ring (first_at_least h ring)) as [e0 |] eqn:E0; [| congruence].
  pose proof (first_at_least_hit h ring e0 E0).
  pose proof (ring_sorted_nth ring _ _ _ _ Hs Hj E0 He). lia.
Qed.

(** An entry with a hash below [h] lies before the first entry at least [h]. *)
Lemma below_is_before h ring (j : nat) e :
  ring_sorted ring -> nth_error ring j = Some e -> hash_ e < h ->
  (j < first_at_least h ring)%nat.
Proof.
  intros Hs He Hlt.
  destruct (Nat.lt_ge_cases j (first_at_least h ring)) as [| Hge]; [assumption |].
  pose proof (first_at_least_above h ring j e Hs Hge He). lia.
Qed.

(** An entry with a hash of at least [h] does not lie before it. *)
Lemma at_least_is_not_before h ring (j : nat) e :
  nth_error ring j = Some e -> h <= hash_ e ->
  (first_at_least h ring <= j)%nat.
Proof.
  intros He Hle.
  destruct (Nat.lt_ge_cases j (first_at_least h ring)) as [Hlt |]; [| assumption].
  pose proof (first_at_least_below h ring j e Hlt He). lia.
Qed.

Lemma successor_index_cases h ring :
  (first_at_least h ring = List.length ring /\ successor_index h ring = O)
  \/ ((first_at_least h ring < List.length ring)%nat
      /\ successor_index h ring = first_at_least h ring).
Proof.
  unfold successor_index. pose proof (first_at_least_le_length h ring).
  destruct (Nat.eqb_spec (first_at_least h ring) (List.length ring)); [left | right];
    split; auto; lia.
Qed.

(** The value of [midval1] in an iteration at [midp]. *)
Lemma midval1_spec ring (midp : Z) :
  0 <= midp < vec_size ring ->
  (if midp =? 0 then Ret 0
   else e1 <- vec_at ring (midp - 1) ;; Ret (hash_ e1))
  = Ret (prev_hash ring (Z.to_nat midp)).
Proof.
  intros Hm. destruct (Z.eqb_spec midp 0) as [-> | Hne]; [reflexivity |].
  destruct (vec_at_in_range ring (midp - 1)) as [e1 He1]; [lia |].
  rewrite He1. simpl. apply vec_at_Ret in He1 as [_ He1].
  replace (Z.to_nat midp) with (S (Z.to_nat (midp - 1))) by lia.
  simpl. now rewrite He1.
Qed.

Lemma prev_hash_lt_is_not_after h ring (p : nat) :
  ring_sorted ring -> (p < List.length ring)%nat -> prev_hash ring p < h ->
  (p <= first_at_least h ring)%nat.
Proof.
  intros Hs Hp Hlt. destruct p as [| p]; [lia |]. simpl in Hlt.
  destruct (nth_error ring p) as [e1 |] eqn:E1.
  - pose proof (below_is_before h ring p e1 Hs E1 Hlt). lia.
  - apply nth_error_None in E1. lia.
Qed.

Lemma prev_hash_ge_is_before h ring (p : nat) :
  (0 < p < List.length ring)%nat -> h <= prev_hash ring p ->
  (first_at_least h ring < p)%nat.
Proof.
  intros Hp Hle. destruct p as [| p]; [lia |]. simpl in Hle.
  destruct (nth_error ring p) as [e1 |] eqn:E1.
  - pose proof (at_least_is_not_before h ring p e1 E1 Hle). lia.
  - apply nth_error_None in E1. lia.
Qed.

(** The loop invariant of the ketama search: the first entry at least [h]
    stays inside the window, and the window shrinks. *)
Lemma search_loop_finds (fuel : nat) ring h :
  ring_sorted ring ->
  forall lowp highp,
    0 <= lowp <= Z.of_nat (first_at_least h ring) ->
    Z.of_nat (first_at_least h ring) <= highp <= vec_size ring ->
    highp - lowp + 1 <= Z.of_nat fuel ->
    search_loop fuel ring h lowp highp = Ret (Z.of_nat (successor_index h ring)).
Proof.
  intros Hs. induction fuel as [| fuel IH]; intros lowp highp Hlo Hhi Hfuel; [lia |].
  cbn [search_loop].
  set (midp := Z.quot (lowp + highp) 2).
  assert (lowp <= midp <= highp) as Hmid
      by (subst midp; Z.to_euclidean_division_equations; lia).
  pose proof (successor_index_cases h ring) as Hsucc.
  unfold vec_size in *.
  destruct (Z.eqb_spec midp (Z.of_nat (List.length ring))) as [HmN | HmN].
  { (* the wrap at the top *)
    assert (lowp + highp >= 2 * midp)
      by (subst midp; Z.to_euclidean_division_equations; lia).
    destruct Hsucc as [[_ ->] | [? _]]; [reflexivity | lia]. }
  assert (0 <= midp < vec_size ring) as Hrange by (unfold vec_size; lia).
  destruct (vec_at_in_range ring midp Hrange) as [e He].
  rewrite He. cbn [bind]. rewrite (midval1_spec ring midp Hrange). cbn [bind].
  apply vec_at_Ret in He as [_ He].
  assert (Z.to_nat midp < List.length ring)%nat as Hlen by (unfold vec_size in Hrange; lia).
  destruct (Z.leb_spec h (hash_ e)) as [Hle | Hgt];
    [destruct (Z.ltb_spec (prev_hash ring (Z.to_nat midp)) h) as [Hprev | Hprev] |];
    cbn [andb].
  - (* found *)
    pose proof (at_least_is_not_before h ring _ e He Hle).
    pose proof (prev_hash_lt_is_not_after h ring _ Hs Hlen Hprev).
    destruct Hsucc as [[? _] | [_ ->]]; [lia |]. f_equal. lia.
  - (* the entry before [midp] is already at least [h]: go left *)
    destruct (Z.ltb_spec (hash_ e) h); [lia |].
    destruct (Z.ltb_spec (midp - 1) lowp) as [Hexit | Hgo].
    + (* only possible at [midp = 0] *)
      destruct (Z.eq_dec midp 0) as [Hz | Hnz].
      * pose proof (at_least_is_not_before h ring _ e He Hle).
        destruct Hsucc as [[? _] | [_ ->]]; [lia |]. f_equal. lia.
      * pose proof (prev_hash_ge_is_before h ring (Z.to_nat midp)
                      ltac:(lia) Hprev). lia.
    + destruct (Z.eq_dec midp 0) as [Hz | Hnz]; [lia |].
      pose proof (prev_hash_ge_is_before h ring (Z.to_nat midp)
                    ltac:(lia) Hprev).
      apply IH; lia.
  - (* the entry at [midp] is below [h]: go right *)
    destruct (Z.ltb_spec (hash_ e) h); [| lia].
    pose proof (below_is_before h ring _ e Hs He Hgt).
    destruct (Z.ltb_spec highp (midp + 1)) as [Hexit | Hgo]; [lia |].
    apply IH; lia.
Qed.

Lemma choose_midp_unsharded r h :
  ring_sorted (ring_ r) ->
  choose_midp false r h = Ret (Z.of_nat (successor_index h (ring_ r))).
Proof.
  intros Hs. unfold choose_midp, search_window. cbn [bind fst snd].
  pose proof (first_at_least_le_length h (ring_ r)).
  apply search_loop_finds; unfold vec_size, search_fuel; try assumption; lia.
Qed.

Lemma successor_index_in_range h ring :
  ring <> [] -> (successor_index h ring < List.length ring)%nat.
Proof.
  intros Hne. destruct ring as [| x l]; [congruence |].
  destruct (successor_index_cases h (x :: l)) as [[_ ->] | [? ->]];
    simpl in *; lia.
Qed.

Lemma chooseHost_first_attempt (b : bool) r h (p : nat) e :
  choose_midp b r h = Ret (Z.of_nat p) -> nth_error (ring_ r) p = Some e ->
  chooseHost b r h 0 = Ret (Some (host_ e)).
Proof.
  intros Hm He. unfold chooseHost.
  destruct (ring_ r) as [| x l] eqn:Er; [destruct p; discriminate |].
  rewrite Hm. cbn [bind]. change (0 <? 0) with false. cbv iota.
  rewrite <- Er in *. now rewrite (vec_at_of_nat _ _ _ He).
Qed.

(** C1.  On a ring with entries, sorted as the constructor leaves it, and
    with sharding disabled, [chooseHost(h, 0)] returns the host of the entry
    at the smallest index [p] with [h <= entries[p].hash]; for [h > 0] this
    is the unique [p] with [entries[p-1].hash < h <= entries[p].hash], the
    hash before the first entry being taken as 0; and it returns the host of
    entry 0 both when [h] exceeds every hash (the wrap at the top) and when
    [h = 0]. *)
Theorem chooseHost_unsharded_first_at_least r h :
  ring_ r <> [] -> ring_sorted (ring_ r) -> ring_u64 (ring_ r) -> is_u64 h ->
  exists (p : nat) e,
    nth_error (ring_ r) p = Some e
    /\ choose_midp false r h = Ret (Z.of_nat p)
    /\ chooseHost false r h 0 = Ret (Some (host_ e))
    /\ ((exists e', In e' (ring_ r) /\ h <= hash_ e') ->
        h <= hash_ e
        /\ forall (j : nat) e', (j < p)%nat ->
             nth_error (ring_ r) j = Some e' -> hash_ e' < h)
    /\ (0 < h -> (exists e', In e' (ring_ r) /\ h <= hash_ e') ->
        prev_hash (ring_ r) p < h <= hash_ e
        /\ forall (q : nat) e', nth_error (ring_ r) q = Some e' ->
             prev_hash (ring_ r) q < h <= hash_ e' -> q = p)
    /\ ((forall e', In e' (ring_ r) -> hash_ e' < h) -> p = O)
    /\ (h = 0 -> p = O).
Proof.
  intros Hne Hs Hu Hh.
  set (ring := ring_ r) in *.
  pose proof (successor_index_in_range h ring Hne) as Hp.
  destruct (nth_error ring (successor_index h ring)) as [e |] eqn:He;
    [| apply nth_error_None in He; lia].
  exists (successor_index h ring), e.
  pose proof (choose_midp_unsharded r h Hs) as Hm. fold ring in Hm.
  split; [assumption |]. split; [assumption |].
  split; [now apply (chooseHost_first_attempt false r h (successor_index h ring) e) |].
  assert (forall e', In e' ring -> h <= hash_ e' ->
            successor_index h ring = first_at_least h ring) as Hsome.
  { intros e' Hin Hle. apply In_nth_error in Hin as [j Hj].
    pose proof (at_least_is_not_before h ring j e' Hj Hle).
    assert (j < List.length ring)%nat by (apply nth_error_Some; congruence).
    destruct (successor_index_cases h ring) as [[? _] | [_ ?]]; [lia | assumption]. }
  repeat apply conj.
  - intros (e' & Hin & Hle). rewrite (Hsome e' Hin Hle) in *. split.
    + now apply first_at_least_hit in He.
    + intros j e'' Hj Hnth. now apply (first_at_least_below h ring j e'').
  - intros Hpos (e' & Hin & Hle). rewrite (Hsome e' Hin Hle) in *.
    repeat apply conj.
    + destruct (first_at_least h ring) as [| p'] eqn:Ep; [assumption |].
      simpl. destruct (nth_error ring p') as [e1 |] eqn:E1.
      * apply (first_at_least_below h ring p' e1); [lia | assumption].
      * apply nth_error_None in E1. lia.
    + now apply first_at_least_hit in He.
    + intros q e'' Hq [Hprev Hcur].
      pose proof (at_least_is_not_before h ring q e'' Hq Hcur).
      assert (q < List.length ring)%nat as Hq' by (apply nth_error_Some; congruence).
      pose proof (prev_hash_lt_is_not_after h ring q Hs Hq' Hprev).
      lia.
  - intros Hall.
    destruct (successor_index_cases h ring) as [[_ ?] | [Hlt Heq]]; [assumption |].
    rewrite Heq in He. pose proof (first_at_least_hit h ring e He).
    apply nth_error_In in He. specialize (Hall e He). lia.
  - intros ->. destruct ring as [| x l] eqn:Er; [congruence |].
    inversion Hu as [| ? ? [Hx _] _]; subst.
    unfold successor_index. simpl.
    destruct (Z.leb_spec 0 (hash_ x)); [reflexivity | lia].
Qed.

End Lookup.

(** Sortedness and range of a ring given by its entries. *)
Ltac solve_ring_wf :=
  unfold ring_sorted, ring_u64;
  repeat first [ apply SSorted_nil | apply SSorted_cons
               | apply Forall_nil | apply Forall_cons ];
  simpl; unfold is_u64, two64; lia.

Lemma chooseHost_unsharded_first_at_least_witness :
  exists (p : nat) (e : RingEntry nat),
    nth_error [mkRingEntry 10 1%nat; mkRingEntry 20 2%nat;
               mkRingEntry 30 3%nat; mkRingEntry 40 4%nat] p = Some e
    /\ p = 1%nat /\ host_ e = 2%nat
    /\ chooseHost false
         (mkRing [mkRingEntry 10 1%nat; mkRingEntry 20 2%nat;
                  mkRingEntry 30 3%nat; mkRingEntry 40 4%nat] [] 9) 15 0
       = Ret (Some (host_ e)).
Proof.
  destruct (chooseHost_unsharded_first_at_least
              (mkRing [mkRingEntry 10 1%nat; mkRingEntry 20 2%nat;
                       mkRingEntry 30 3%nat; mkRingEntry 40 4%nat] [] 9) 15)
    as (p & e & Hnth & Hmid & Hhost & _).
  - discriminate.
  - solve_ring_wf.
  - solve_ring_wf.
  - unfold is_u64, two64. lia.
  - exists p, e.
    change (Ret 1 = Ret (Z.of_nat p)) in Hmid. injection Hmid as Hp.
    assert (p = 1%nat) as -> by lia.
    simpl in Hnth. injection Hnth as <-. simpl in *.
    repeat split; assumption.
Defined.

(** ** The retry offset *)

Section Retry.

Context {Host : Type}.
Implicit Types (ring : list (RingEntry Host)) (r : Ring Host) (e : RingEntry Host).

Lemma bind_Ret_inv {A B : Type} (m : outcome A) (k : A -> outcome B) (b : B) :
  bind m k = Ret b -> exists a, m = Ret a /\ k a = Ret b.
Proof. destruct m; simpl; intros E; try discriminate. eauto. Qed.

(** Whatever the window, an index the search returns is inside the ring. *)
Lemma search_loop_in_range (fuel : nat) ring h :
  ring <> [] ->
  forall lowp highp p,
    search_loop fuel ring h lowp highp = Ret p -> 0 <= p < vec_size ring.
Proof.
  intros Hne.
  assert (0 < vec_size ring) as Hpos
      by (destruct ring; [congruence | unfold vec_size; simpl; lia]).
  induction fuel as [| fuel IH]; intros lowp highp p; cbn [search_loop];
    [discriminate |].
  destruct (Z.quot (lowp + highp) 2 =? vec_size ring); [intros [= <-]; lia |].
  intros E. apply bind_Ret_inv in E as (e & He & E).
  apply bind_Ret_inv in E as (m1 & _ & E).
  apply vec_at_Ret in He as [Hrange _].
  destruct ((h <=? hash_ e) && (m1 <? h)); [injection E as <-; assumption |].
  match type of E with
  | (if ?c then _ else _) = _ => destruct c; [injection E as <-; lia | eauto]
  end.
Qed.

Lemma choose_midp_in_range (b : bool) r h p :
  ring_ r <> [] -> choose_midp b r h = Ret p -> 0 <= p < vec_size (ring_ r).
Proof.
  intros Hne E. unfold choose_midp in E.
  apply bind_Ret_inv in E as (w & _ & E).
  now apply (search_loop_in_range _ _ _ Hne _ _ _ E).
Qed.

(** The retry offset, lines 151-155: from the index [p] that the search
    leaves, an attempt above 0 returns the host of the entry at index
    [(p + attempt) mod ring_.size()], and the first attempt that of the entry
    at [p]. *)
Lemma chooseHost_at_offset (b : bool) r h attempt p :
  ring_ r <> [] -> vec_size (ring_ r) < 2 ^ 63 -> 0 < attempt < 2 ^ 32 ->
  choose_midp b r h = Ret p ->
  exists e0 e,
    vec_at (ring_ r) p = Ret e0
    /\ chooseHost b r h 0 = Ret (Some (host_ e0))
    /\ vec_at (ring_ r) ((p + attempt) mod vec_size (ring_ r)) = Ret e
    /\ chooseHost b r h attempt = Ret (Some (host_ e)).
Proof.
  intros Hne Hsize Hatt Hp.
  assert (0 < vec_size (ring_ r)) as Hpos
      by (destruct (ring_ r); [congruence | unfold vec_size; simpl; lia]).
  pose proof (choose_midp_in_range b r h p Hne Hp) as Hrange.
  assert (to_u64 (p + attempt) mod vec_size (ring_ r)
          = (p + attempt) mod vec_size (ring_ r)) as Hwrap
      by (unfold to_u64, two64; rewrite (Z.mod_small (p + attempt));
          [reflexivity | lia]).
  destruct (vec_at_in_range (ring_ r) p Hrange) as [e0 He0].
  destruct (vec_at_in_range (ring_ r) ((p + attempt) mod vec_size (ring_ r)))
    as [e He]; [apply Z.mod_pos_bound; lia |].
  exists e0, e. unfold chooseHost.
  destruct (ring_ r) as [| x l] eqn:Er; [congruence |]. rewrite <- Er in *.
  rewrite Hp. cbn [bind]. change (0 <? 0) with false. cbv iota.
  destruct (Z.ltb_spec 0 attempt); [| lia].
  rewrite Hwrap, He0, He. auto.
Qed.

End Retry.

(** ** Termination of the loops *)

Lemma vec_at_uses_no_fuel {A : Type} (v : list A) (i : Z) : vec_at v i <> OutOfFuel.
Proof.
  unfold vec_at. destruct ((0 <=? i) && (i <? vec_size v)); [| discriminate].
  destruct (nth_error v (Z.to_nat i)); discriminate.
Qed.

(** The search never stops for lack of fuel, whatever the window: either the
    window is empty and one iteration leaves the loop, or [midp] lies inside
    it and the window shrinks. *)
Lemma search_loop_fuel_suffices {Host : Type} (fuel : nat)
    (ring : list (RingEntry Host)) (h : Z) :
  forall lowp highp,
    1 <= Z.of_nat fuel -> highp - lowp + 1 <= Z.of_nat fuel ->
    search_loop fuel ring h lowp highp <> OutOfFuel.
Proof.
  induction fuel as [| fuel IH]; intros lowp highp H1 Hfuel; [lia |].
  cbn [search_loop].
  set (midp := Z.quot (lowp + highp) 2).
  assert (lowp <= highp -> lowp <= midp <= highp) as Hin
      by (intros; subst midp; Z.to_euclidean_division_equations; lia).
  assert (highp < lowp -> highp <= midp <= lowp) as Hout
      by (intros; subst midp; Z.to_euclidean_division_equations; lia).
  destruct (midp =? vec_size ring); [discriminate |].
  pose proof (vec_at_uses_no_fuel ring midp) as Hmid.
  destruct (vec_at ring midp) as [e | |]; cbn [bind];
    [| discriminate | congruence].
  assert (forall midval1,
            (if (h <=? hash_ e) && (midval1 <? h) then Ret midp
             else if (if hash_ e <? h then highp else midp - 1)
                     <? (if hash_ e <? h then midp + 1 else lowp)
                  then Ret 0
                  else search_loop fuel ring h
                         (if hash_ e <? h then midp + 1 else lowp)
                         (if hash_ e <? h then highp else midp - 1))
            <> OutOfFuel) as Hbody.
  { intros midval1.
    destruct ((h <=? hash_ e) && (midval1 <? h)); [discriminate |].
    destruct (hash_ e <? h).
    - destruct (Z.ltb_spec highp (midp + 1)); [discriminate |]. apply IH; lia.
    - destruct (Z.ltb_spec (midp - 1) lowp); [discriminate |]. apply IH; lia. }
  destruct (midp =? 0); cbn [bind]; [apply Hbody |].
  pose proof (vec_at_uses_no_fuel ring (midp - 1)) as Hprev.
  destruct (vec_at ring (midp - 1)) as [e1 | |]; cbn [bind];
    [apply Hbody | discriminate | congruence].
Qed.

Lemma chooseHost_fuel_suffices {Host : Type} (b : bool) (r : Ring Host) (h attempt : Z) :
  chooseHost b r h attempt <> OutOfFuel.
Proof.
  unfold chooseHost, choose_midp.
  destruct (ring_ r) as [| x l] eqn:Er; [discriminate |]. rewrite <- Er.
  assert (search_window b r h <> OutOfFuel) as Hw.
  { unfold search_window. destruct b; [| discriminate].
    pose proof (vec_at_uses_no_fuel (ring_shard_ r)
                  (shard_index_of (rshift_to_shard r) h)) as H1.
    pose proof (vec_at_uses_no_fuel (ring_shard_ r)
                  (shard_index_of (rshift_to_shard r) h + 1)) as H2.
    destruct (vec_at (ring_shard_ r) (shard_index_of (rshift_to_shard r) h));
      cbn [bind]; [| discriminate | congruence].
    destruct (vec_at (ring_shard_ r) (shard_index_of (rshift_to_shard r) h + 1));
      cbn [bind]; [discriminate | discriminate | congruence]. }
  destruct (search_window b r h) as [[lowp highp] | |]; cbn [bind fst snd];
    [| discriminate | congruence].
  pose proof (search_loop_fuel_suffices (search_fuel lowp highp) (ring_ r) h
                lowp highp) as Hfuel.
  destruct (search_loop (search_fuel lowp highp) (ring_ r) h lowp highp) as [p | |];
    cbn [bind].
  - pose proof (vec_at_uses_no_fuel (ring_ r)
                  (if 0 <? attempt
                   then to_u64 (p + attempt) mod vec_size (ring_ r) else p)) as Hat.
    destruct (vec_at (ring_ r) _); cbn [bind]; [discriminate | discriminate | congruence].
  - discriminate.
  - exfalso. apply Hfuel; unfold search_fuel; [lia | lia | reflexivity].
Qed.

(** The halving loop ends within its fuel with [n = 0], and counts the
    position of the highest set bit. *)
Lemma msb_loop_spec (fuel : nat) :
  forall n msb,
    0 <= n < 2 ^ Z.of_nat fuel ->
    msb_loop fuel n msb = (0, msb + (if n =? 0 then 0 else Z.log2 n + 1)).
Proof.
  induction fuel as [| fuel IH]; intros n msb Hn; cbn [msb_loop].
  - change (2 ^ Z.of_nat 0) with 1 in Hn. assert (n = 0) as -> by lia.
    cbn. now rewrite Z.add_0_r.
  - destruct (Z.eqb_spec n 0) as [-> | Hnz]; cbn [negb].
    + now rewrite Z.add_0_r.
    + rewrite Nat2Z.inj_succ, Z.pow_succ_r in Hn by lia.
      rewrite IH by (Z.to_euclidean_division_equations; lia).
      f_equal.
      destruct (Z.eqb_spec (n / 2) 0) as [Hz | Hnz'].
      * assert (n = 1) as -> by (Z.to_euclidean_division_equations; lia).
        change (Z.log2 1) with 0. lia.
      * assert (Z.log2 n = Z.log2 (n / 2) + 1); [| lia].
        assert (1 < n) by (Z.to_euclidean_division_equations; lia).
        assert (0 < Z.log2 n) by (apply Z.log2_pos; lia).
        change 2 with (2 ^ 1) at 1. rewrite <- Z.shiftr_div_pow2 by lia.
        rewrite Z.log2_shiftr by lia. lia.
Qed.

(** ** Rounding in exact arithmetic *)

Lemma Qceiling_unique (x : Q) (z : Z) :
  (inject_Z (z - 1) < x)%Q -> (x <= inject_Z z)%Q -> Qceiling x = z.
Proof.
  intros Hlo Hhi.
  pose proof (Qceiling_lt x) as H1. pose proof (Qle_ceiling x) as H2.
  assert (inject_Z (Qceiling x - 1) < inject_Z z)%Q as H3 by lra.
  assert (inject_Z (z - 1) < inject_Z (Qceiling x))%Q as H4 by lra.
  rewrite <- Zlt_Qlt in H3, H4. lia.
Qed.

Lemma inject_Z_pred (z : Z) : (inject_Z (z - 1) == inject_Z z - 1)%Q.
Proof. unfold Z.sub. rewrite inject_Z_plus, inject_Z_opp. reflexivity. Qed.

Lemma inject_Z_succ (z : Z) : (inject_Z (z + 1) == inject_Z z + 1)%Q.
Proof. rewrite inject_Z_plus. reflexivity. Qed.

Lemma Qceiling_sub_Z (x : Q) (c : Z) :
  Qceiling (x - inject_Z c) = Qceiling x - c.
Proof.
  apply Qceiling_unique.
  - pose proof (Qceiling_lt x) as H. rewrite inject_Z_pred in *.
    unfold Z.sub. rewrite inject_Z_plus, inject_Z_opp. lra.
  - pose proof (Qle_ceiling x). unfold Z.sub. rewrite inject_Z_plus, inject_Z_opp. lra.
Qed.

Lemma Qceiling_le_Z (x : Q) (z : Z) : (x <= inject_Z z)%Q -> Qceiling x <= z.
Proof. intros H. rewrite <- (Qceiling_Z z). now apply Qceiling_resp_le. Qed.

Lemma Qceiling_gt_Z (x : Q) (z : Z) : (inject_Z z < x)%Q -> z < Qceiling x.
Proof.
  intros H. pose proof (Qle_ceiling x).
  assert (inject_Z z < inject_Z (Qceiling x))%Q as H' by lra.
  now rewrite <- Zlt_Qlt in H'.
Qed.

(** Adding [x >= 0] to a running sum raises its ceiling by the floor or by
    the ceiling of [x]. *)
Lemma Qceiling_step (t x : Q) :
  Qfloor x <= Qceiling (t + x) - Qceiling t <= Qceiling x
  /\ Qceiling x <= Qfloor x + 1.
Proof.
  pose proof (Qceiling_lt t) as Ht1. pose proof (Qle_ceiling t) as Ht2.
  pose proof (Qfloor_le x) as Hx1. pose proof (Qlt_floor x) as Hx2.
  pose proof (Qle_ceiling x) as Hx3.
  rewrite inject_Z_pred in Ht1. rewrite inject_Z_succ in Hx2.
  repeat apply conj.
  - assert (Qceiling t + Qfloor x - 1 < Qceiling (t + x)); [| lia].
    apply Qceiling_gt_Z. rewrite inject_Z_pred, inject_Z_plus. lra.
  - assert (Qceiling (t + x) <= Qceiling t + Qceiling x); [| lia].
    apply Qceiling_le_Z. rewrite inject_Z_plus. lra.
  - apply Qceiling_le_Z. rewrite inject_Z_succ. lra.
Qed.

Lemma Qceiling_step_cases (t x : Q) :
  Qceiling (t + x) - Qceiling t = Qfloor x
  \/ Qceiling (t + x) - Qceiling t = Qceiling x.
Proof. pose proof (Qceiling_step t x). lia. Qed.

(** ** The shape of a build, whatever the arithmetic *)

Section BuilderShape.

Variable D : DoubleArith.
Context {Host : Type}.
Variable hashKey : Host -> bool -> string.
Variables xxHash64 murmurHash2 : string -> Z.
Variable rshift_to_shard_init : Z.

Local Abbreviation place := (place_hashes D xxHash64 murmurHash2).
Local Abbreviation nodes := (virtual_nodes xxHash64 murmurHash2).
Local Abbreviation step := (host_step D hashKey xxHash64 murmurHash2).
Local Abbreviation run := (populate D hashKey xxHash64 murmurHash2).
Local Abbreviation counts_of := (hashes_per_host D hashKey xxHash64 murmurHash2).
Local Abbreviation blocks := (host_blocks hashKey xxHash64 murmurHash2).
Local Abbreviation build :=
  (Ring_build D hashKey xxHash64 murmurHash2 rshift_to_shard_init).

Lemma virtual_nodes_S hf (host : Host) key (i : Z) (n : nat) :
  nodes hf host key i (S n)
  = mkRingEntry (hash_of xxHash64 murmurHash2 hf (hash_key_of key i)) host
    :: nodes hf host key (i + 1) n.
Proof.
  unfold virtual_nodes. cbn [seq map]. rewrite Z.add_0_r. f_equal.
  rewrite <- seq_shift, map_map. apply map_ext. intros k.
  do 3 f_equal. lia.
Qed.

Lemma virtual_nodes_length hf (host : Host) key (i : Z) (n : nat) :
  List.length (nodes hf host key i n) = n.
Proof. unfold virtual_nodes. now rewrite length_map, length_seq. Qed.

(** The inner loop appends the entries of the host numbered from [i], as
    many as [i] grows by. *)
Lemma place_hashes_shape (fuel : nat) hf (host : Host) key (target : double D) :
  forall ring (current : double D) (i : Z) ring' current' i',
    place fuel hf host key target ring current i = Ret (ring', current', i') ->
    i <= i' /\ ring' = ring ++ nodes hf host key i (Z.to_nat (i' - i)).
Proof.
  induction fuel as [| fuel IH]; intros ring current i ring' current' i';
    cbn [place_hashes]; destruct (d_lt D current target); try discriminate.
  - intros [= <- _ <-]. rewrite Z.sub_diag, app_nil_r. split; [lia | reflexivity].
  - intros E. apply IH in E as [Hle ->]. split; [lia |].
    replace (Z.to_nat (i' - i)) with (S (Z.to_nat (i' - (i + 1)))) by lia.
    rewrite virtual_nodes_S, <- app_assoc. reflexivity.
  - intros [= <- _ <-]. rewrite Z.sub_diag, app_nil_r. split; [lia | reflexivity].
Qed.

Lemma host_step_shape (scale : double D) hf (uh : bool) (st st' : BuildState D Host)
    (entry : Host * double D) (n : Z) :
  step scale hf uh st entry = Ret (st', n) ->
  0 <= n
  /\ bs_ring st' = bs_ring st ++ nodes hf (fst entry) (hashKey (fst entry) uh) 0 (Z.to_nat n)
  /\ bs_target_hashes st' = d_add D (bs_target_hashes st) (d_mul D scale (snd entry))
  /\ bs_min_hashes_per_host st' = Z.min n (bs_min_hashes_per_host st)
  /\ bs_max_hashes_per_host st' = Z.max n (bs_max_hashes_per_host st).
Proof.
  unfold host_step. intros E.
  apply bind_Ret_inv in E as ([[ring current] i] & Hplace & E).
  injection E as <- <-. cbn.
  apply place_hashes_shape in Hplace as [Hle ->].
  rewrite Z.sub_0_r. auto.
Qed.

Lemma fold_min_pull (a b : Z) (l : list Z) :
  fold_right Z.min (Z.min a b) l = Z.min a (fold_right Z.min b l).
Proof. induction l as [| x l IH]; cbn; [reflexivity | rewrite IH; lia]. Qed.

Lemma fold_max_pull (a b : Z) (l : list Z) :
  fold_right Z.max (Z.max a b) l = Z.max a (fold_right Z.max b l).
Proof. induction l as [| x l IH]; cbn; [reflexivity | rewrite IH; lia]. Qed.

(** The loop over the hosts: the ring is the blocks of the hosts in input
    order, and the tallies are the least and the greatest count, started from
    their initial values. *)
Lemma populate_shape (scale : double D) hf (uh : bool)
    (hosts : list (Host * double D)) :
  forall st st' : BuildState D Host,
    run scale hf uh st hosts = Ret st' ->
    exists counts,
      counts_of scale hf uh st hosts = Ret counts
      /\ List.length counts = List.length hosts
      /\ Forall (fun n => 0 <= n) counts
      /\ bs_ring st' = bs_ring st ++ blocks hf uh hosts counts
      /\ bs_min_hashes_per_host st'
         = fold_right Z.min (bs_min_hashes_per_host st) counts
      /\ bs_max_hashes_per_host st'
         = fold_right Z.max (bs_max_hashes_per_host st) counts.
Proof.
  induction hosts as [| entry rest IH]; intros st st'; cbn [populate hashes_per_host].
  - intros [= <-]. exists []. cbn. rewrite app_nil_r. repeat split; constructor.
  - intros E. apply bind_Ret_inv in E as ([st1 n] & Hstep & E). cbn [fst] in E.
    rewrite Hstep. cbn [bind fst snd].
    apply host_step_shape in Hstep as (Hn & Hring & _ & Hmin & Hmax).
    destruct (IH st1 st' E) as (counts & -> & Hlen & Hpos & IHring & IHmin & IHmax).
    exists (n :: counts). cbn [bind List.length host_blocks fold_right].
    repeat apply conj.
    + reflexivity.
    + now rewrite Hlen.
    + now constructor.
    + now rewrite IHring, Hring, <- app_assoc.
    + rewrite IHmin, Hmin. apply fold_min_pull.
    + rewrite IHmax, Hmax. apply fold_max_pull.
Qed.

Lemma host_blocks_length {W : Type} hf (uh : bool) (hosts : list (Host * W))
    (counts : list Z) :
  List.length counts = List.length hosts -> Forall (fun n => 0 <= n) counts ->
  vec_size (blocks hf uh hosts counts) = sum_counts counts.
Proof.
  revert counts. unfold vec_size.
  induction hosts as [| entry rest IH]; intros [| n counts] Hlen Hpos;
    try discriminate; [reflexivity |].
  inversion Hpos as [| ? ? Hn Hpos']; subst.
  cbn [host_blocks]. rewrite length_app, virtual_nodes_length, Nat2Z.inj_add.
  unfold sum_counts in *. cbn [fold_right].
  rewrite IH by (auto; cbn in Hlen; lia). lia.
Qed.

(** *** The sort *)

Lemma insert_entry_perm (e : RingEntry Host) l :
  Permutation (insert_entry e l) (e :: l).
Proof.
  induction l as [| x l IH]; cbn; [reflexivity |].
  destruct (hash_ x <? hash_ e); [| reflexivity].
  rewrite IH. apply perm_swap.
Qed.

Lemma sort_ring_perm (l : list (RingEntry Host)) : Permutation (sort_ring l) l.
Proof.
  induction l as [| e l IH]; cbn; [reflexivity |].
  rewrite insert_entry_perm. now constructor.
Qed.

Lemma insert_entry_sorted (e : RingEntry Host) l :
  ring_sorted l -> ring_sorted (insert_entry e l).
Proof.
  unfold ring_sorted. induction 1 as [| x l Hl IH Hx]; cbn.
  - repeat constructor.
  - destruct (Z.ltb_spec (hash_ x) (hash_ e)) as [Hlt | Hge].
    + constructor; [assumption |].
      rewrite insert_entry_perm.
      constructor; [lia | assumption].
    + constructor; [now constructor |].
      constructor; [assumption |].
      eapply Forall_impl; [| exact Hx]. cbn. intros; lia.
Qed.

Lemma sort_ring_sorted (l : list (RingEntry Host)) : ring_sorted (sort_ring l).
Proof.
  induction l as [| e l IH]; cbn; [constructor | now apply insert_entry_sorted].
Qed.

Lemma sort_ring_size (l : list (RingEntry Host)) : vec_size (sort_ring l) = vec_size l.
Proof. unfold vec_size. now rewrite (Permutation_length (sort_ring_perm l)). Qed.

Lemma to_u64_range (z : Z) : is_u64 (to_u64 z).
Proof. unfold is_u64, to_u64, two64. apply Z.mod_pos_bound. lia. Qed.

Lemma host_blocks_u64 {W : Type} hf (uh : bool) (hosts : list (Host * W))
    (counts : list Z) :
  ring_u64 (blocks hf uh hosts counts).
Proof.
  unfold ring_u64. revert counts.
  induction hosts as [| entry rest IH]; intros [| n counts]; cbn [host_blocks];
    try constructor.
  apply Forall_app. split; [| apply IH].
  unfold virtual_nodes. apply Forall_forall. intros e He.
  apply in_map_iff in He as (k & <- & _). apply to_u64_range.
Qed.

(** *** The constructor as a whole *)

Lemma Ring_build_inv (b : bool) (hosts : list (Host * double D)) (mnw : double D)
    (min_ring_size max_ring_size : Z) hf (uh : bool) r stats :
  hosts <> [] ->
  build b hosts mnw min_ring_size max_ring_size hf uh = Ret (r, stats) ->
  let scale := ring_scale D mnw min_ring_size max_ring_size in
  let ring_size := d_to_u64 D (d_ceil D scale) in
  exists st,
    run scale hf uh (initial_state D ring_size) hosts = Ret st
    /\ ring_ r = sort_ring (bs_ring st)
    /\ stats = [(size_, ring_size);
                (min_hashes_per_host_, bs_min_hashes_per_host st);
                (max_hashes_per_host_, bs_max_hashes_per_host st)]
    /\ (if b
        then build_shards rshift_to_shard_init (sort_ring (bs_ring st)) ring_size
             = Ret (ring_shard_ r, rshift_to_shard r)
        else ring_shard_ r = [] /\ rshift_to_shard r = rshift_to_shard_init).
Proof.
  intros Hne E scale ring_size. unfold Ring_build in E.
  destruct hosts as [| entry rest]; [congruence |].
  cbv zeta in E. fold scale ring_size in E.
  apply bind_Ret_inv in E as (st & Hst & E).
  apply bind_Ret_inv in E as ([shard rshift] & Hsh & E).
  injection E as <- <-. cbn [ring_ ring_shard_ rshift_to_shard fst snd].
  exists st. repeat apply conj; try reflexivity; try assumption.
  destruct b; [assumption | injection Hsh as <- <-; auto].
Qed.

Lemma build_shards_completes (ring : list (RingEntry Host)) (ring_size : Z) :
  ring <> [] ->
  exists shard rshift,
    build_shards rshift_to_shard_init ring ring_size = Ret (shard, rshift).
Proof.
  intros Hne. unfold build_shards.
  destruct ring as [| e0 ring']; [congruence |].
  change (vec_at (e0 :: ring') 0) with (Ret e0). cbn [bind].
  destruct (msb_loop 64 (hash_ e0 / 2) 0) as [n msb].
  destruct (fold_left _ _ _) as [[shard ?] ?]. eauto.
Qed.

(** What a completed build leaves, whatever the arithmetic. *)
Lemma Ring_build_ring (b : bool) (hosts : list (Host * double D)) (mnw : double D)
    (min_ring_size max_ring_size : Z) hf (uh : bool) r stats :
  hosts <> [] ->
  build b hosts mnw min_ring_size max_ring_size hf uh = Ret (r, stats) ->
  let scale := ring_scale D mnw min_ring_size max_ring_size in
  let ring_size := d_to_u64 D (d_ceil D scale) in
  exists counts,
    counts_of scale hf uh (initial_state D ring_size) hosts = Ret counts
    /\ List.length counts = List.length hosts
    /\ Forall (fun n => 0 <= n) counts
    /\ Permutation (ring_ r) (blocks hf uh hosts counts)
    /\ vec_size (ring_ r) = sum_counts counts
    /\ stats = [(size_, ring_size);
                (min_hashes_per_host_, fold_right Z.min ring_size counts);
                (max_hashes_per_host_, fold_right Z.max 0 counts)].
Proof.
  intros Hne E scale ring_size.
  destruct (Ring_build_inv b hosts mnw min_ring_size max_ring_size hf uh r stats Hne E)
    as (st & Hrun & Hring & Hstats & _). fold scale ring_size in Hrun, Hstats.
  destruct (populate_shape scale hf uh hosts _ _ Hrun)
    as (counts & Hcounts & Hlen & Hpos & Pring & Pmin & Pmax).
  cbn [initial_state bs_ring bs_min_hashes_per_host bs_max_hashes_per_host app] in *.
  exists counts. repeat apply conj; try assumption.
  - rewrite Hring, <- Pring. apply sort_ring_perm.
  - rewrite Hring, sort_ring_size, Pring. now apply host_blocks_length.
  - now rewrite Hstats, Pmin, Pmax.
Qed.

End BuilderShape.

(** ** The constructor in exact arithmetic *)

Section ExactBuilder.

Context {Host : Type}.
Variable hashKey : Host -> bool -> string.
Variables xxHash64 murmurHash2 : string -> Z.
Variable rshift_to_shard_init : Z.

Local Abbreviation place := (place_hashes Exact.arith xxHash64 murmurHash2).
Local Abbreviation nodes := (virtual_nodes xxHash64 murmurHash2).
Local Abbreviation step := (host_step Exact.arith hashKey xxHash64 murmurHash2).
Local Abbreviation run := (populate Exact.arith hashKey xxHash64 murmurHash2).
Local Abbreviation counts_of :=
  (hashes_per_host Exact.arith hashKey xxHash64 murmurHash2).
Local Abbreviation blocks := (host_blocks hashKey xxHash64 murmurHash2).
Local Abbreviation build :=
  (Ring_build Exact.arith hashKey xxHash64 murmurHash2 rshift_to_shard_init).
Local Abbreviation scale_of := (ring_scale Exact.arith).

Lemma exact_trunc_ceil (x : Q) : Exact.trunc_Z (Exact.ceil x) = Qceiling x.
Proof. unfold Exact.trunc_Z, Exact.ceil. cbn. apply Z.quot_1_r. Qed.

(** The inner loop, started on a whole [current_hashes = c]: it places
    [max 0 (ceil target_hashes - c)] entries, and completes as soon as the
    fuel covers that number. *)
Lemma exact_place_hashes (fuel : nat) hf (host : Host) key (target : Q) :
  forall ring (current : Q) (i c : Z),
    (current == inject_Z c)%Q ->
    Qceiling target - c <= Z.of_nat fuel ->
    let n := Z.max 0 (Qceiling target - c) in
    exists current',
      place fuel hf host key target ring current i
      = Ret (ring ++ nodes hf host key i (Z.to_nat n), current', i + n)
      /\ (current' == inject_Z (c + n))%Q.
Proof.
  induction fuel as [| fuel IH]; intros ring current i c Hc Hfuel n; subst n;
    cbn [place_hashes d_lt d_add d_of_u64 Exact.arith]; unfold Exact.lt;
    destruct (Qlt_le_dec current target) as [Hlt | Hge].
  - assert (c < Qceiling target) by (apply Qceiling_gt_Z; lra). cbn in Hfuel. lia.
  - assert (Qceiling target <= c) by (apply Qceiling_le_Z; lra).
    replace (Z.max 0 (Qceiling target - c)) with 0 by lia.
    exists current. rewrite app_nil_r, !Z.add_0_r. auto.
  - assert (c < Qceiling target) as Hn by (apply Qceiling_gt_Z; lra).
    destruct (IH (ring ++ [mkRingEntry
                             (hash_of xxHash64 murmurHash2 hf (hash_key_of key i))
                             host])
                 (current + inject_Z 1)%Q (i + 1) (c + 1)) as (current' & Hrun & Hcur).
    + rewrite inject_Z_plus. lra.
    + lia.
    + exists current'. rewrite Hrun. split.
      * replace (Z.to_nat (Z.max 0 (Qceiling target - c)))
          with (S (Z.to_nat (Z.max 0 (Qceiling target - (c + 1))))) by lia.
        rewrite virtual_nodes_S, <- app_assoc. cbn [app]. do 2 f_equal. lia.
      * rewrite Hcur. apply inject_Z_injective. lia.
  - assert (Qceiling target <= c) by (apply Qceiling_le_Z; lra).
    replace (Z.max 0 (Qceiling target - c)) with 0 by lia.
    exists current. rewrite app_nil_r, !Z.add_0_r. auto.
Qed.

Lemma Qceiling_nonneg (x : Q) : (0 <= x)%Q -> 0 <= Qceiling x.
Proof. intros H. change 0 with (Qceiling 0). now apply Qceiling_resp_le. Qed.

(** One host: the number of entries placed is the growth of the ceiling of
    [target_hashes]. *)
Lemma exact_host_step (scale : Q) hf (uh : bool) (st : BuildState Exact.arith Host)
    (entry : Host * double Exact.arith) :
  caught_up st -> (0 <= scale * snd entry)%Q ->
  let target := (bs_target_hashes st + scale * snd entry)%Q in
  let n := Qceiling target - Qceiling (bs_target_hashes st) in
  exists st',
    step scale hf uh st entry = Ret (st', n)
    /\ bs_target_hashes st' = target
    /\ caught_up st'.
Proof.
  intros [Hpos Hst] Hx target n.
  assert (0 <= target)%Q as Htarget by (subst target; lra).
  assert (Qceiling (bs_target_hashes st) <= Qceiling target) as Hmono
      by (apply Qceiling_resp_le; subst target; lra).
  pose proof (Qceiling_nonneg _ Hpos) as Hc.
  unfold host_step.
  change (d_add Exact.arith (bs_target_hashes st)
            (d_mul Exact.arith scale (snd entry))) with target.
  destruct (exact_place_hashes
              (place_fuel Exact.arith target) hf (fst entry)
              (hashKey (fst entry) uh) target (bs_ring st)
              (bs_current_hashes st) 0 (Qceiling (bs_target_hashes st)) Hst)
    as (current' & Hrun & Hcur).
  { unfold place_fuel. cbn [d_to_u64 d_ceil Exact.arith].
    rewrite exact_trunc_ceil. lia. }
  replace (Z.max 0 (Qceiling target - Qceiling (bs_target_hashes st))) with n in *
    by lia.
  rewrite Hrun. cbn [bind Z.add].
  eexists. split; [reflexivity |]. split; [reflexivity |].
  unfold caught_up. cbn [bs_target_hashes bs_current_hashes].
  split; [exact Htarget |]. rewrite Hcur. apply inject_Z_injective. lia.
Qed.

(** All hosts: the loop completes, and each count is the floor or the
    ceiling of [scale * weight]. *)
Lemma exact_populate (scale : Q) hf (uh : bool)
    (hosts : list (Host * double Exact.arith)) :
  Forall (fun entry => 0 <= scale * snd entry)%Q hosts ->
  forall st : BuildState Exact.arith Host,
    caught_up st ->
    exists st' counts,
      run scale hf uh st hosts = Ret st'
      /\ counts_of scale hf uh st hosts = Ret counts
      /\ caught_up st'
      /\ (bs_target_hashes st' == bs_target_hashes st + scale * total_weight hosts)%Q
      /\ Forall2 (fun entry n => n = Qfloor (scale * snd entry)
                                 \/ n = Qceiling (scale * snd entry)) hosts counts
      /\ sum_counts counts
         = Qceiling (bs_target_hashes st') - Qceiling (bs_target_hashes st).
Proof.
  induction 1 as [| entry rest Hx Hrest IH]; intros st Hst;
    cbn [populate hashes_per_host].
  - exists st, [].
    split; [reflexivity |]. split; [reflexivity |]. split; [exact Hst |].
    split; [| split; [constructor | cbn; lia]].
    unfold total_weight. cbn [fold_right]. now rewrite Qmult_0_r, Qplus_0_r.
  - destruct (exact_host_step scale hf uh st entry Hst Hx)
      as (st1 & Hstep & Htarget & Hst1).
    rewrite Hstep. cbn [bind fst snd].
    destruct (IH st1 Hst1) as (st' & counts & -> & -> & Hst' & IHtarget & IHcounts & IHsum).
    eexists st', (_ :: counts). cbn [bind].
    split; [reflexivity |]. split; [reflexivity |]. split; [exact Hst' |].
    split; [| split].
    + rewrite IHtarget, Htarget. unfold total_weight. cbn [fold_right].
      rewrite Qmult_plus_distr_r, Qplus_assoc. reflexivity.
    + constructor; [apply Qceiling_step_cases | assumption].
    + unfold sum_counts in *. cbn [fold_right]. rewrite IHsum, Htarget. lia.
Qed.

(** *** The scale *)

Lemma exact_scale_nonneg (mnw : Q) (min_ring_size max_ring_size : Z) :
  (0 < mnw)%Q -> 0 <= min_ring_size -> 0 <= max_ring_size ->
  (0 <= scale_of mnw min_ring_size max_ring_size)%Q.
Proof.
  intros Hw Hmin Hmax. unfold ring_scale, std_min.
  cbn [d_lt d_div d_mul d_ceil d_of_u64 Exact.arith]. unfold Exact.lt, Exact.ceil.
  destruct Qlt_le_dec.
  - change 0%Q with (inject_Z 0). now rewrite <- Zle_Qle.
  - apply Qle_shift_div_l; [assumption |]. rewrite Qmult_0_l.
    change 0%Q with (inject_Z 0). rewrite <- Zle_Qle.
    apply Qceiling_nonneg. apply Qmult_le_0_compat; [lra |].
    change 0%Q with (inject_Z 0). now rewrite <- Zle_Qle.
Qed.

Lemma exact_scale_bounds (mnw : Q) (min_ring_size max_ring_size : Z) :
  (0 < mnw)%Q -> min_ring_size <= max_ring_size ->
  (inject_Z min_ring_size <= scale_of mnw min_ring_size max_ring_size
   <= inject_Z max_ring_size)%Q.
Proof.
  intros Hw Hmm. unfold ring_scale, std_min.
  cbn [d_lt d_div d_mul d_ceil d_of_u64 Exact.arith]. unfold Exact.lt, Exact.ceil.
  rewrite Zle_Qle in Hmm.
  destruct Qlt_le_dec as [Hlt | Hge].
  - split; [assumption | lra].
  - split; [| assumption].
    apply Qle_shift_div_l; [assumption |].
    rewrite Qmult_comm. apply Qle_ceiling.
Qed.

Lemma exact_ring_size_bounds (mnw : Q) (min_ring_size max_ring_size : Z) :
  (0 < mnw)%Q -> min_ring_size <= max_ring_size ->
  min_ring_size <= Qceiling (scale_of mnw min_ring_size max_ring_size)
  <= max_ring_size.
Proof.
  intros Hw Hmm.
  destruct (exact_scale_bounds mnw min_ring_size max_ring_size Hw Hmm) as [Hlo Hhi].
  split.
  - pose proof (Qceiling_resp_le _ _ Hlo) as H. now rewrite Qceiling_Z in H.
  - now apply Qceiling_le_Z.
Qed.

(** *** Counts and tallies *)

Lemma fold_min_swap (a b : Z) (l : list Z) :
  Z.min a (fold_right Z.min b l) = Z.min b (fold_right Z.min a l).
Proof. induction l as [| x l IH]; cbn; lia. Qed.

Lemma fold_max_swap (a b : Z) (l : list Z) :
  Z.max a (fold_right Z.max b l) = Z.max b (fold_right Z.max a l).
Proof. induction l as [| x l IH]; cbn; lia. Qed.

Lemma least_fold (d : Z) (counts : list Z) :
  counts <> [] -> Forall (fun n => n <= d) counts ->
  fold_right Z.min d counts = least counts.
Proof.
  destruct counts as [| n counts]; [congruence |]. intros _ Hall.
  inversion Hall as [| ? ? Hn _]; subst. cbn [least fold_right].
  rewrite fold_min_swap. clear Hall.
  induction counts as [| x l IH]; cbn; lia.
Qed.

Lemma greatest_fold (d : Z) (counts : list Z) :
  counts <> [] -> Forall (fun n => d <= n) counts ->
  fold_right Z.max d counts = greatest counts.
Proof.
  destruct counts as [| n counts]; [congruence |]. intros _ Hall.
  inversion Hall as [| ? ? Hn _]; subst. cbn [greatest fold_right].
  rewrite fold_max_swap. clear Hall.
  induction counts as [| x l IH]; cbn; lia.
Qed.

Lemma count_le_sum (counts : list Z) :
  Forall (fun n => 0 <= n) counts ->
  0 <= sum_counts counts /\ Forall (fun n => n <= sum_counts counts) counts.
Proof.
  unfold sum_counts. induction 1 as [| n l Hn Hl [IH0 IH]]; cbn [fold_right].
  - split; [lia | constructor].
  - split; [lia |]. constructor; [lia |].
    eapply Forall_impl; [| exact IH]. cbn. intros; lia.
Qed.

(** *** The build as a whole *)

(** The loop over the hosts, started from the initial state. *)
Lemma exact_build_counts (hosts : list (Host * double Exact.arith)) (mnw : Q)
    (min_ring_size max_ring_size : Z) hf (uh : bool) :
  Forall (fun entry => 0 < snd entry)%Q hosts ->
  (0 < mnw)%Q -> 0 <= min_ring_size -> 0 <= max_ring_size ->
  let scale := scale_of mnw min_ring_size max_ring_size in
  let ring_size := d_to_u64 Exact.arith (d_ceil Exact.arith scale) in
  ring_size = Qceiling scale
  /\ exists st counts,
      run scale hf uh (initial_state Exact.arith ring_size) hosts = Ret st
      /\ counts_of scale hf uh (initial_state Exact.arith ring_size) hosts = Ret counts
      /\ Forall2 (fun entry n => n = Qfloor (scale * snd entry)
                                 \/ n = Qceiling (scale * snd entry)) hosts counts
      /\ sum_counts counts = Qceiling (scale * total_weight hosts).
Proof.
  intros Hpos Hw Hmin Hmax scale ring_size.
  split; [apply exact_trunc_ceil |].
  pose proof (exact_scale_nonneg mnw min_ring_size max_ring_size Hw Hmin Hmax) as Hscale.
  fold scale in Hscale.
  assert (Forall (fun entry : Host * double Exact.arith => 0 <= scale * snd entry)%Q
            hosts) as Hx.
  { eapply Forall_impl; [| exact Hpos]. cbn. intros entry Hentry.
    apply Qmult_le_0_compat; lra. }
  destruct (exact_populate scale hf uh hosts Hx (initial_state Exact.arith ring_size))
    as (st & counts & Hrun & Hcounts & _ & Htarget & Hfc & Hsum).
  { split; [apply Qle_refl | reflexivity]. }
  exists st, counts. repeat apply conj; try assumption.
  rewrite Hsum. cbn [initial_state bs_target_hashes d_of_u64 Exact.arith] in *.
  change (Qceiling (inject_Z 0)) with 0. rewrite Z.sub_0_r.
  apply Qceiling_comp. rewrite Htarget. change (inject_Z 0) with 0%Q. lra.
Qed.

Lemma exact_build_completes (b : bool) (hosts : list (Host * double Exact.arith))
    (mnw : Q) (min_ring_size max_ring_size : Z) hf (uh : bool)
    (st : BuildState Exact.arith Host) :
  run (scale_of mnw min_ring_size max_ring_size) hf uh
      (initial_state Exact.arith
         (d_to_u64 Exact.arith
            (d_ceil Exact.arith (scale_of mnw min_ring_size max_ring_size))))
      hosts = Ret st ->
  b = false \/ sort_ring (bs_ring st) <> [] ->
  exists r stats,
    build b hosts mnw min_ring_size max_ring_size hf uh = Ret (r, stats).
Proof.
  intros Hrun Hb. unfold Ring_build.
  destruct hosts as [| entry rest]; [eauto |]. cbv zeta.
  rewrite Hrun. cbn [bind].
  destruct b.
  - destruct Hb as [Hb | Hb]; [discriminate |].
    destruct (build_shards_completes rshift_to_shard_init _
                (d_to_u64 Exact.arith
                   (d_ceil Exact.arith (scale_of mnw min_ring_size max_ring_size)))
                Hb) as (shard & rshift & ->).
    cbn [bind]. eauto.
  - cbn [bind]. eauto.
Qed.

(** In exact arithmetic each host with weight [w] receives
    [floor(scale * w)] or [ceil(scale * w)] entries: the build from hosts with
    positive weights (and a positive [min_normalized_weight]) completes
    without sharding, the counts tallied per host are of that form, and the
    ring consists of the entries of each host in that number. *)
Theorem exact_per_host_count_is_floor_or_ceil (b : bool)
    (hosts : list (Host * double Exact.arith)) (mnw : Q)
    (min_ring_size max_ring_size : Z) hf (uh : bool) :
  Forall (fun entry => 0 < snd entry)%Q hosts ->
  (0 < mnw)%Q -> 0 <= min_ring_size -> 0 <= max_ring_size ->
  let scale := scale_of mnw min_ring_size max_ring_size in
  let ring_size := d_to_u64 Exact.arith (d_ceil Exact.arith scale) in
  exists counts,
    counts_of scale hf uh (initial_state Exact.arith ring_size) hosts = Ret counts
    /\ Forall2 (fun entry n => n = Qfloor (scale * snd entry)
                               \/ n = Qceiling (scale * snd entry)) hosts counts
    /\ (forall r stats,
          build b hosts mnw min_ring_size max_ring_size hf uh = Ret (r, stats) ->
          Permutation (ring_ r) (blocks hf uh hosts counts))
    /\ exists r stats,
        build false hosts mnw min_ring_size max_ring_size hf uh = Ret (r, stats).
Proof.
  intros Hpos Hw Hmin Hmax scale ring_size.
  destruct (exact_build_counts hosts mnw min_ring_size max_ring_size hf uh
              Hpos Hw Hmin Hmax) as (_ & st & counts & Hrun & Hcounts & Hfc & _).
  fold scale ring_size in Hrun, Hcounts, Hfc.
  exists counts. repeat apply conj; try assumption.
  - intros r stats E. destruct hosts as [| entry rest].
    + unfold Ring_build in E. injection E as <- _.
      injection Hcounts as <-. constructor.
    + destruct (Ring_build_ring Exact.arith hashKey xxHash64 murmurHash2
                  rshift_to_shard_init b (entry :: rest) mnw min_ring_size
                  max_ring_size hf uh r stats ltac:(discriminate) E)
        as (counts' & Hcounts' & _ & _ & Hperm & _).
      fold scale ring_size in Hcounts'. rewrite Hcounts in Hcounts'.
      injection Hcounts' as <-. exact Hperm.
  - apply (exact_build_completes false hosts mnw min_ring_size max_ring_size hf uh st);
      auto.
Qed.

(** In exact arithmetic the ring has between [min_ring_size] and
    [max_ring_size] entries: for a non-empty host set whose positive weights
    sum to 1, with a positive [min_normalized_weight] and
    [min_ring_size <= max_ring_size].  The build completes without sharding,
    and with sharding when [min_ring_size] is not 0. *)
Theorem exact_ring_size_within_bounds (b : bool)
    (hosts : list (Host * double Exact.arith)) (mnw : Q)
    (min_ring_size max_ring_size : Z) hf (uh : bool) :
  hosts <> [] ->
  Forall (fun entry => 0 < snd entry)%Q hosts -> (total_weight hosts == 1)%Q ->
  (0 < mnw)%Q -> 0 <= min_ring_size <= max_ring_size ->
  (forall r stats,
      build b hosts mnw min_ring_size max_ring_size hf uh = Ret (r, stats) ->
      min_ring_size <= vec_size (ring_ r) <= max_ring_size)
  /\ (b = false \/ 0 < min_ring_size ->
      exists r stats,
        build b hosts mnw min_ring_size max_ring_size hf uh = Ret (r, stats)).
Proof.
  intros Hne Hpos Hsum Hw [Hmin Hmm].
  destruct (exact_build_counts hosts mnw min_ring_size max_ring_size hf uh
              Hpos Hw Hmin ltac:(lia)) as (_ & st & counts & Hrun & Hcounts & _ & Htotal).
  cbv zeta in *.
  pose proof (exact_ring_size_bounds mnw min_ring_size max_ring_size Hw Hmm) as Hbounds.
  rewrite (Qceiling_comp _ (scale_of mnw min_ring_size max_ring_size)) in Htotal
    by (rewrite Hsum; lra).
  split.
  - intros r stats E.
    destruct (Ring_build_ring Exact.arith hashKey xxHash64 murmurHash2
                rshift_to_shard_init b hosts mnw min_ring_size max_ring_size hf uh
                r stats Hne E) as (counts' & Hcounts' & _ & _ & _ & Hsize & _).
    cbv zeta in Hcounts'. rewrite Hcounts in Hcounts'. injection Hcounts' as <-.
    rewrite Hsize, Htotal. exact Hbounds.
  - intros Hb.
    apply (exact_build_completes b hosts mnw min_ring_size max_ring_size hf uh st Hrun).
    destruct Hb as [Hb | Hb]; [now left | right].
    destruct (populate_shape Exact.arith hashKey xxHash64 murmurHash2 _ hf uh hosts
                _ _ Hrun) as (counts' & Hcounts' & Hlen & Hnonneg & Hring & _).
    rewrite Hcounts in Hcounts'. injection Hcounts' as <-.
    cbn [initial_state bs_ring app] in Hring.
    intros Hnil.
    assert (vec_size (sort_ring (bs_ring st)) = sum_counts counts) as Hsize
        by (rewrite sort_ring_size, Hring; now apply host_blocks_length).
    rewrite Hnil, Htotal in Hsize. unfold vec_size in Hsize. cbn in Hsize. lia.
Qed.

(** In exact arithmetic the gauges report the ring: for a non-empty host
    set whose positive weights sum to 1 (with a positive
    [min_normalized_weight]), exactly three gauges are set, [size] to the
    number of entries of the ring, and [min_hashes_per_host] and
    [max_hashes_per_host] to the least and the greatest of the numbers of
    entries placed per host. *)
Theorem exact_gauges_report_size_and_counts (b : bool)
    (hosts : list (Host * double Exact.arith)) (mnw : Q)
    (min_ring_size max_ring_size : Z) hf (uh : bool) r stats :
  hosts <> [] ->
  Forall (fun entry => 0 < snd entry)%Q hosts -> (total_weight hosts == 1)%Q ->
  (0 < mnw)%Q -> 0 <= min_ring_size -> 0 <= max_ring_size ->
  build b hosts mnw min_ring_size max_ring_size hf uh = Ret (r, stats) ->
  exists counts,
    counts_of (scale_of mnw min_ring_size max_ring_size) hf uh
      (initial_state Exact.arith
         (d_to_u64 Exact.arith
            (d_ceil Exact.arith (scale_of mnw min_ring_size max_ring_size))))
      hosts = Ret counts
    /\ List.length counts = List.length hosts
    /\ Permutation (ring_ r) (blocks hf uh hosts counts)
    /\ stats = [(size_, vec_size (ring_ r));
                (min_hashes_per_host_, least counts);
                (max_hashes_per_host_, greatest counts)].
Proof.
  intros Hne Hpos Hsum Hw Hmin Hmax E.
  destruct (exact_build_counts hosts mnw min_ring_size max_ring_size hf uh
              Hpos Hw Hmin Hmax) as (Hrs & st & counts & Hrun & Hcounts & _ & Htotal).
  destruct (Ring_build_ring Exact.arith hashKey xxHash64 murmurHash2
              rshift_to_shard_init b hosts mnw min_ring_size max_ring_size hf uh
              r stats Hne E)
    as (counts' & Hcounts' & Hlen & Hnonneg & Hperm & Hsize & Hstats).
  cbv zeta in *. rewrite Hcounts in Hcounts'. injection Hcounts' as <-.
  rewrite (Qceiling_comp _ (scale_of mnw min_ring_size max_ring_size)) in Htotal
    by (rewrite Hsum; lra).
  exists counts. repeat apply conj; try assumption; try reflexivity.
  assert (counts <> []) as Hcne
      by (destruct counts; [destruct hosts; [congruence | discriminate] | discriminate]).
  destruct (count_le_sum counts Hnonneg) as [_ Hle].
  rewrite Hstats, Hsize, Hrs, <- Htotal.
  rewrite (least_fold _ _ Hcne Hle), (greatest_fold _ _ Hcne Hnonneg). reflexivity.
Qed.

End ExactBuilder.

(** ** The claims on the constructor *)

(** C9.  The build from an empty host vector gives a ring without entries
    and sets no gauge; on a ring without entries [chooseHost] returns
    [nullptr] for every hash and every attempt, with or without sharding. *)
Theorem empty_host_set_gives_empty_ring_and_no_stats
    (D : DoubleArith) (Host : Type) (hashKey : Host -> bool -> string)
    (xxHash64 murmurHash2 : string -> Z) (rshift_to_shard_init : Z) :
  (forall (b : bool) (mnw : double D) (min_ring_size max_ring_size : Z) hf (uh : bool),
      Ring_build D hashKey xxHash64 murmurHash2 rshift_to_shard_init
        b [] mnw min_ring_size max_ring_size hf uh
      = Ret (mkRing [] [] rshift_to_shard_init, []))
  /\ (forall (b : bool) (shard : list Z) (rshift h attempt : Z),
        chooseHost b (mkRing (@nil (RingEntry Host)) shard rshift) h attempt
        = Ret None).
Proof. split; reflexivity. Qed.

(** Sortedness.  Whatever the arithmetic, the ring of a completed build is
    sorted by hash, every hash is a [uint64_t], and the ring consists of the
    entries of each host in the number tallied for it. *)
Theorem built_ring_is_sorted
    (D : DoubleArith) (Host : Type) (hashKey : Host -> bool -> string)
    (xxHash64 murmurHash2 : string -> Z) (rshift_to_shard_init : Z)
    (b : bool) (hosts : list (Host * double D)) (mnw : double D)
    (min_ring_size max_ring_size : Z) hf (uh : bool) r stats :
  Ring_build D hashKey xxHash64 murmurHash2 rshift_to_shard_init
    b hosts mnw min_ring_size max_ring_size hf uh = Ret (r, stats) ->
  ring_sorted (ring_ r) /\ ring_u64 (ring_ r).
Proof.
  intros E. destruct hosts as [| entry rest].
  - unfold Ring_build in E. injection E as <- _. split; constructor.
  - destruct (Ring_build_inv D hashKey xxHash64 murmurHash2 rshift_to_shard_init
                b (entry :: rest) mnw min_ring_size max_ring_size hf uh r stats
                ltac:(discriminate) E) as (st & _ & Hring & _).
    destruct (Ring_build_ring D hashKey xxHash64 murmurHash2 rshift_to_shard_init
                b (entry :: rest) mnw min_ring_size max_ring_size hf uh r stats
                ltac:(discriminate) E) as (counts & _ & _ & _ & Hperm & _).
    split.
    + rewrite Hring. apply sort_ring_sorted.
    + unfold ring_u64. rewrite Hperm. apply host_blocks_u64.
Qed.

(** ** Runs on IEEE-754 doubles *)

Lemma two_hosts_build :
  Example.build true Example.two_hosts Example.half 2 2 XX_HASH true
  = Ret (Example.two_hosts_ring,
         [(size_, 2); (min_hashes_per_host_, 1); (max_hashes_per_host_, 1)]).
Proof. vm_compute. reflexivity. Qed.

Lemma built_ring_is_sorted_witness :
  ring_sorted (ring_ Example.two_hosts_ring) /\ ring_u64 (ring_ Example.two_hosts_ring).
Proof.
  apply (built_ring_is_sorted Binary64.arith Example.Host Example.hashKey
           Example.xxHash64 Example.murmurHash2_unused Example.rshift_to_shard_init
           true Example.two_hosts Example.half 2 2 XX_HASH true Example.two_hosts_ring
           [(size_, 2); (min_hashes_per_host_, 1); (max_hashes_per_host_, 1)]).
  exact two_hosts_build.
Defined.

(** The weights of [Example.ninths] and of [Example.twelfths] are positive
    doubles that sum to 1, as real numbers and in double arithmetic, the
    last, respectively the first, being the least. *)
Lemma ninths_normalized :
  (Example.Q_of_float Example.third + Example.Q_of_float Example.five_ninths
   + Example.Q_of_float Example.rest_of_ninths == 1)%Q
  /\ PrimFloat.add (PrimFloat.add Example.third Example.five_ninths)
       Example.rest_of_ninths = Example.one
  /\ PrimFloat.ltb PrimFloat.zero Example.rest_of_ninths = true
  /\ PrimFloat.ltb Example.rest_of_ninths Example.third = true
  /\ PrimFloat.ltb Example.third Example.five_ninths = true.
Proof. vm_compute. repeat split; reflexivity. Qed.

Lemma twelfths_normalized :
  (Example.Q_of_float Example.rest_of_twelfths + Example.Q_of_float Example.quarter
   + Example.Q_of_float Example.two_thirds == 1)%Q
  /\ PrimFloat.add (PrimFloat.add Example.rest_of_twelfths Example.quarter)
       Example.two_thirds = Example.one
  /\ PrimFloat.ltb PrimFloat.zero Example.rest_of_twelfths = true
  /\ PrimFloat.ltb Example.rest_of_twelfths Example.quarter = true
  /\ PrimFloat.ltb Example.quarter Example.two_thirds = true.
Proof. vm_compute. repeat split; reflexivity. Qed.

(** The failing input of C3.  Built from [Example.twelfths] with
    [min_ring_size = max_ring_size = 12], the scale is 12 and the second
    host, of weight 1/4, for which [scale * w] is 3, is given 2 entries; and
    built from the weights 4/10, 1/10 and 5/10 with
    [min_ring_size = max_ring_size = 6], the third host, for which
    [scale * w] is 3, is given 2 entries. *)
Lemma per_host_count_misses_in_double :
  ring_scale Binary64.arith Example.rest_of_twelfths 12 12 = Example.twelve
  /\ hashes_per_host Binary64.arith Example.hashKey Example.xxHash64
       Example.murmurHash2_unused Example.twelve XX_HASH true
       (initial_state Binary64.arith 12) Example.twelfths
     = Ret [2; 2; 8]
  /\ Qfloor (Example.Q_of_float Example.twelve * Example.Q_of_float Example.quarter) = 3
  /\ Qceiling (Example.Q_of_float Example.twelve * Example.Q_of_float Example.quarter) = 3
  /\ ring_scale Binary64.arith Example.tenth 6 6 = Example.six
  /\ hashes_per_host Binary64.arith Example.hashKey Example.xxHash64
       Example.murmurHash2_unused Example.six XX_HASH true
       (initial_state Binary64.arith 6) Example.tenths
     = Ret [3; 1; 2]
  /\ Qfloor (Example.Q_of_float Example.six * Example.Q_of_float Example.five_tenths) = 3
  /\ Qceiling (Example.Q_of_float Example.six * Example.Q_of_float Example.five_tenths) = 3.
Proof. vm_compute. repeat split; reflexivity. Qed.

(** The failing input of C4.  Built from [Example.ninths] with
    [min_ring_size = max_ring_size = 3], the ring has 4 entries; so has the
    ring built from the weights 4/5 and 1/5. *)
Lemma ring_exceeds_max_ring_size_in_double :
  (exists r stats,
      Example.build false Example.ninths Example.rest_of_ninths 3 3 XX_HASH true
      = Ret (r, stats)
      /\ vec_size (ring_ r) = 4)
  /\ (exists r stats,
        Example.build false Example.fifths Example.fifth 3 3 XX_HASH true
        = Ret (r, stats)
        /\ vec_size (ring_ r) = 4).
Proof.
  split; eexists; eexists; (split; [vm_compute; reflexivity | reflexivity]).
Qed.

(** The failing input of C8.  In the same build from [Example.ninths] the
    gauge [size] is set to 3 while the ring has 4 entries. *)
Lemma size_gauge_misses_ring_length_in_double :
  exists r,
    Example.build false Example.ninths Example.rest_of_ninths 3 3 XX_HASH true
    = Ret (r, [(size_, 3); (min_hashes_per_host_, 1); (max_hashes_per_host_, 2)])
    /\ vec_size (ring_ r) = 4.
Proof. eexists. split; [vm_compute; reflexivity | reflexivity]. Qed.

(** The failing input of C6: in the ring built from the two hosts, entry 1
    has a shifted value different from that of entry 0, yet the boundary that
    is appended is 2 and not 1, and the interval of the shard of entry 1,
    from [ring_shard_[1]] to [ring_shard_[2]], is empty. *)
Lemma shard_boundary_is_one_too_far :
  Example.build true Example.two_hosts Example.half 2 2 XX_HASH true
  = Ret (Example.two_hosts_ring,
         [(size_, 2); (min_hashes_per_host_, 1); (max_hashes_per_host_, 1)])
  /\ map (fun e => plain_shard_index 62 (hash_ e)) (ring_ Example.two_hosts_ring)
     = [0; 3]
  /\ ring_shard_ Example.two_hosts_ring = [0; 2; 2]
  /\ ~ In 1 (ring_shard_ Example.two_hosts_ring)
  /\ ~ (2 <= 1 < 2).
Proof.
  split; [exact two_hosts_build |]. split; [reflexivity |]. split; [reflexivity |].
  split; [| lia]. cbn. intros [H | [H | [H | []]]]; discriminate.
Qed.

(** The failing input of C5: on that ring the hash 0x8000000000000000 has
    shard index 2, one past the last index at which both reads are inside
    [ring_shard_], and [chooseHost] reads outside the vector. *)
Lemma shard_index_out_of_range :
  shard_index_of (rshift_to_shard Example.two_hosts_ring) 0x8000000000000000 = 2
  /\ vec_size (ring_shard_ Example.two_hosts_ring) = 3
  /\ vec_at (ring_shard_ Example.two_hosts_ring) (2 + 1) = Undefined
  /\ chooseHost true Example.two_hosts_ring 0x8000000000000000 0 = Undefined.
Proof. repeat split; reflexivity. Qed.

(** The failing input of C2: on that ring the hash 0x4000000000000000 is
    sent to host210 with sharding and to host0 without. *)
Lemma sharded_lookup_differs :
  chooseHost true Example.two_hosts_ring 0x4000000000000000 0
  = Ret (Some Example.host210)
  /\ chooseHost false Example.two_hosts_ring 0x4000000000000000 0
     = Ret (Some Example.host0).
Proof. split; reflexivity. Qed.

(** The failing input of C7: on that ring, built with sharding, the hash
    0x8000000000000000 has no index that the search selects.  Without
    sharding the search selects entry 1 and the attempt 1 returns the host of
    entry [(1 + 1) mod 2 = 0]; with sharding both the first attempt and the
    attempt 1 read [ring_shard_[3]], outside the vector. *)
Lemma retry_on_sharded_ring_reads_outside_shard_table :
  Example.build true Example.two_hosts Example.half 2 2 XX_HASH true
  = Ret (Example.two_hosts_ring,
         [(size_, 2); (min_hashes_per_host_, 1); (max_hashes_per_host_, 1)])
  /\ choose_midp false Example.two_hosts_ring 0x8000000000000000 = Ret 1
  /\ chooseHost false Example.two_hosts_ring 0x8000000000000000 1
     = Ret (Some Example.host210)
  /\ choose_midp true Example.two_hosts_ring 0x8000000000000000 = Undefined
  /\ chooseHost true Example.two_hosts_ring 0x8000000000000000 0 = Undefined
  /\ chooseHost true Example.two_hosts_ring 0x8000000000000000 1 = Undefined.
Proof. split; [exact two_hosts_build | repeat split; reflexivity]. Qed.

(** ** Runs in exact arithmetic *)

Lemma two_hosts_exact_positive :
  Forall (fun entry : Example.Host * double Exact.arith => 0 < snd entry)%Q
    Example.two_hosts_exact.
Proof. repeat constructor. Qed.

Lemma two_hosts_exact_build :
  Example.build_exact true Example.two_hosts_exact (1 # 2) 2 2 XX_HASH true
  = Ret (Example.two_hosts_ring,
         [(size_, 2); (min_hashes_per_host_, 1); (max_hashes_per_host_, 1)]).
Proof. vm_compute. reflexivity. Qed.

Lemma exact_per_host_count_is_floor_or_ceil_witness :
  exists counts,
    hashes_per_host Exact.arith Example.hashKey Example.xxHash64
      Example.murmurHash2_unused (ring_scale Exact.arith (1 # 2) 2 2) XX_HASH true
      (initial_state Exact.arith
         (d_to_u64 Exact.arith
            (d_ceil Exact.arith (ring_scale Exact.arith (1 # 2) 2 2))))
      Example.two_hosts_exact = Ret counts
    /\ Forall2 (fun entry n =>
                  n = Qfloor (ring_scale Exact.arith (1 # 2) 2 2 * snd entry)
                  \/ n = Qceiling (ring_scale Exact.arith (1 # 2) 2 2 * snd entry))
         Example.two_hosts_exact counts.
Proof.
  destruct (exact_per_host_count_is_floor_or_ceil Example.hashKey Example.xxHash64
              Example.murmurHash2_unused Example.rshift_to_shard_init
              true Example.two_hosts_exact (1 # 2) 2 2 XX_HASH true)
    as (counts & Hcounts & Hfc & _).
  - exact two_hosts_exact_positive.
  - reflexivity.
  - lia.
  - lia.
  - exists counts. split; assumption.
Defined.

Lemma exact_ring_size_within_bounds_witness :
  2 <= vec_size (ring_ Example.two_hosts_ring) <= 2.
Proof.
  apply (exact_ring_size_within_bounds Example.hashKey Example.xxHash64
           Example.murmurHash2_unused Example.rshift_to_shard_init
           true Example.two_hosts_exact (1 # 2) 2 2 XX_HASH true)
    with (stats := [(size_, 2); (min_hashes_per_host_, 1); (max_hashes_per_host_, 1)]).
  - discriminate.
  - exact two_hosts_exact_positive.
  - reflexivity.
  - reflexivity.
  - lia.
  - exact two_hosts_exact_build.
Defined.

Lemma exact_gauges_report_size_and_counts_witness :
  exists counts,
    List.length counts = List.length Example.two_hosts_exact
    /\ [(size_, 2); (min_hashes_per_host_, 1); (max_hashes_per_host_, 1)]
       = [(size_, vec_size (ring_ Example.two_hosts_ring));
          (min_hashes_per_host_, least counts);
          (max_hashes_per_host_, greatest counts)].
Proof.
  destruct (exact_gauges_report_size_and_counts Example.hashKey Example.xxHash64
              Example.murmurHash2_unused Example.rshift_to_shard_init
              true Example.two_hosts_exact (1 # 2) 2 2 XX_HASH true
              Example.two_hosts_ring
              [(size_, 2); (min_hashes_per_host_, 1); (max_hashes_per_host_, 1)])
    as (counts & _ & Hlen & _ & Hstats).
  - discriminate.
  - exact two_hosts_exact_positive.
  - reflexivity.
  - reflexivity.
  - lia.
  - lia.
  - exact two_hosts_exact_build.
  - exists counts. split; assumption.
Defined.

(** * Further properties of the lookup *)

(** ** The search stays inside the ring *)

Section LookupSafety.

Context {Host : Type}.
Implicit Types (ring : list (RingEntry Host)) (r : Ring Host) (e : RingEntry Host).

(** From a window whose two ends are indices of the ring or its size, every
    read of the search is inside the ring and the search returns. *)
Lemma search_loop_returns (fuel : nat) ring h :
  forall lowp highp,
    0 <= lowp <= vec_size ring -> 0 <= highp <= vec_size ring ->
    1 <= Z.of_nat fuel -> highp - lowp + 1 <= Z.of_nat fuel ->
    exists p, search_loop fuel ring h lowp highp = Ret p.
Proof.
  induction fuel as [| fuel IH]; intros lowp highp Hlo Hhi H1 Hfuel; [lia |].
  cbn [search_loop].
  set (midp := Z.quot (lowp + highp) 2).
  assert (Z.min lowp highp <= midp <= Z.max lowp highp) as Hmid
      by (subst midp; Z.to_euclidean_division_equations; lia).
  destruct (Z.eqb_spec midp (vec_size ring)) as [HmN | HmN]; [eauto |].
  assert (0 <= midp < vec_size ring) as Hrange by lia.
  destruct (vec_at_in_range ring midp Hrange) as [e He].
  rewrite He. cbn [bind]. rewrite (midval1_spec ring midp Hrange). cbn [bind].
  destruct ((h <=? hash_ e) && (prev_hash ring (Z.to_nat midp) <? h)); [eauto |].
  destruct (hash_ e <? h).
  - destruct (Z.ltb_spec highp (midp + 1)); [eauto |]. apply IH; lia.
  - destruct (Z.ltb_spec (midp - 1) lowp); [eauto |]. apply IH; lia.
Qed.

(** [chooseHost] past its test for an empty ring. *)
Lemma chooseHost_with_entries (b : bool) r h attempt :
  ring_ r <> [] ->
  chooseHost b r h attempt
  = (midp <- choose_midp b r h ;;
     e <- vec_at (ring_ r)
            (if 0 <? attempt then to_u64 (midp + attempt) mod vec_size (ring_ r)
             else midp) ;;
     Ret (Some (host_ e))).
Proof.
  intros Hne. unfold chooseHost. destruct (ring_ r); [congruence | reflexivity].
Qed.

(** The lookup on a window inside the ring returns a host of the ring. *)
Lemma chooseHost_in_window (b : bool) r h attempt lowp highp :
  ring_ r <> [] -> vec_size (ring_ r) < 2 ^ 63 -> 0 <= attempt < 2 ^ 32 ->
  search_window b r h = Ret (lowp, highp) ->
  0 <= lowp <= vec_size (ring_ r) -> 0 <= highp <= vec_size (ring_ r) ->
  exists e, In e (ring_ r) /\ chooseHost b r h attempt = Ret (Some (host_ e)).
Proof.
  intros Hne Hsize Hatt Hw Hlo Hhi.
  destruct (search_loop_returns (search_fuel lowp highp) (ring_ r) h lowp highp
              Hlo Hhi) as [p Hp]; unfold search_fuel; try lia.
  assert (choose_midp b r h = Ret p) as Hmid
      by (unfold choose_midp; rewrite Hw; exact Hp).
  pose proof (choose_midp_in_range b r h p Hne Hmid) as Hrange.
  set (q := if 0 <? attempt then to_u64 (p + attempt) mod vec_size (ring_ r) else p).
  assert (0 <= q < vec_size (ring_ r)) as Hq.
  { subst q. destruct (0 <? attempt); [apply Z.mod_pos_bound; lia | assumption]. }
  destruct (vec_at_in_range (ring_ r) q Hq) as [e He].
  exists e. split.
  - apply vec_at_Ret in He as [_ He]. now apply nth_error_In in He.
  - rewrite (chooseHost_with_entries b r h attempt Hne), Hmid. cbn [bind].
    fold q. now rewrite He.
Qed.

(** Without sharding [chooseHost] returns a host of the ring: for every ring
    with entries, sorted or not, every hash and every attempt, no read is
    outside the ring and the result is not [nullptr]. *)
Theorem chooseHost_unsharded_returns_ring_host r h attempt :
  ring_ r <> [] -> vec_size (ring_ r) < 2 ^ 63 -> 0 <= attempt < 2 ^ 32 ->
  exists e, In e (ring_ r) /\ chooseHost false r h attempt = Ret (Some (host_ e)).
Proof.
  intros Hne Hsize Hatt.
  assert (0 <= vec_size (ring_ r)) by (unfold vec_size; lia).
  apply (chooseHost_in_window false r h attempt 0 (vec_size (ring_ r)));
    auto; lia.
Qed.

(** ** What the search can select *)

(** Whatever the window, the index that the search leaves is 0, or an index
    whose entry has a hash of at least [h] while the entry before it has a
    hash below [h]. *)
Lemma search_loop_zero_or_hit (fuel : nat) ring h :
  forall lowp highp p,
    search_loop fuel ring h lowp highp = Ret p ->
    p = 0
    \/ (0 < p < vec_size ring
        /\ exists e, nth_error ring (Z.to_nat p) = Some e
                     /\ h <= hash_ e /\ prev_hash ring (Z.to_nat p) < h).
Proof.
  induction fuel as [| fuel IH]; intros lowp highp p; cbn [search_loop];
    [discriminate |].
  set (midp := Z.quot (lowp + highp) 2).
  destruct (midp =? vec_size ring); [intros [= <-]; now left |].
  intros E. apply bind_Ret_inv in E as (e & He & E).
  apply vec_at_Ret in He as [Hrange He].
  rewrite (midval1_spec ring midp Hrange) in E. cbn [bind] in E.
  destruct (Z.leb_spec h (hash_ e)) as [Hle | Hgt];
    [destruct (Z.ltb_spec (prev_hash ring (Z.to_nat midp)) h) as [Hprev | Hprev] |];
    cbn [andb] in E.
  - injection E as <-. destruct (Z.eq_dec midp 0); [now left | right].
    split; [lia |]. exists e. auto.
  - match type of E with
    | (if ?c then _ else _) = _ => destruct c; [injection E as <-; now left | eauto]
    end.
  - match type of E with
    | (if ?c then _ else _) = _ => destruct c; [injection E as <-; now left | eauto]
    end.
Qed.

Lemma choose_midp_zero_or_successor (b : bool) r h p :
  ring_sorted (ring_ r) -> choose_midp b r h = Ret p ->
  p = 0 \/ p = Z.of_nat (successor_index h (ring_ r)).
Proof.
  intros Hs E. unfold choose_midp in E.
  apply bind_Ret_inv in E as (w & _ & E).
  apply search_loop_zero_or_hit in E as [-> | (Hp & e & He & Hle & Hprev)];
    [now left | right].
  assert (Z.to_nat p < List.length (ring_ r))%nat as Hlen
      by (unfold vec_size in Hp; lia).
  pose proof (at_least_is_not_before h (ring_ r) _ e He Hle).
  pose proof (prev_hash_lt_is_not_after h (ring_ r) _ Hs Hlen Hprev).
  destruct (successor_index_cases h (ring_ r)) as [[? _] | [_ ->]]; lia.
Qed.

(** With sharding, on a sorted ring and whatever [ring_shard_] holds, a
    first attempt that returns a host returns the host that the lookup
    without sharding returns, or else the host of entry 0. *)
Theorem chooseHost_sharded_is_unsharded_or_first r h x :
  ring_sorted (ring_ r) ->
  chooseHost true r h 0 = Ret (Some x) ->
  chooseHost false r h 0 = Ret (Some x)
  \/ exists e0, nth_error (ring_ r) 0 = Some e0 /\ x = host_ e0.
Proof.
  intros Hs E.
  assert (ring_ r <> []) as Hne
      by (intros Hnil; unfold chooseHost in E; rewrite Hnil in E; discriminate).
  pose proof (choose_midp_unsharded r h Hs) as Hun.
  unfold chooseHost in *.
  destruct (ring_ r) as [| e0 l] eqn:Er; [congruence |]. rewrite <- Er in *.
  apply bind_Ret_inv in E as (p & Hp & E).
  change (0 <? 0) with false in *. cbv iota in *.
  destruct (choose_midp_zero_or_successor true r h p Hs Hp) as [-> | ->].
  - right. exists e0. rewrite Er in *. split; [reflexivity |].
    change (vec_at (e0 :: l) 0) with (Ret e0) in E. cbn [bind] in E. congruence.
  - left. rewrite Hun. cbn [bind]. exact E.
Qed.

(** ** The window decides

    The search looks at indices of its window only. *)
Lemma search_loop_in_window (fuel : nat) ring h :
  forall lowp highp p,
    0 <= lowp <= highp ->
    search_loop fuel ring h lowp highp = Ret p ->
    p = 0 \/ lowp <= p <= highp.
Proof.
  induction fuel as [| fuel IH]; intros lowp highp p Hw; cbn [search_loop];
    [discriminate |].
  set (midp := Z.quot (lowp + highp) 2).
  assert (lowp <= midp <= highp) as Hmid
      by (subst midp; Z.to_euclidean_division_equations; lia).
  destruct (midp =? vec_size ring); [intros [= <-]; now left |].
  intros E. apply bind_Ret_inv in E as (e & He & E).
  apply bind_Ret_inv in E as (m1 & _ & E).
  destruct ((h <=? hash_ e) && (m1 <? h)); [injection E as <-; now right |].
  destruct (hash_ e <? h).
  - destruct (Z.ltb_spec highp (midp + 1)); [injection E as <-; now left |].
    apply IH in E as [-> | ?]; [now left | right; lia | lia].
  - destruct (Z.ltb_spec (midp - 1) lowp); [injection E as <-; now left |].
    apply IH in E as [-> | ?]; [now left | right; lia | lia].
Qed.

(** With sharding, on a sorted ring, the two values read from [ring_shard_]
    decide the result.  For a window [lowp <= highp] inside the ring: when
    the index of the first entry with a hash of at least [h] lies in the
    window, the lookup is the lookup without sharding, at every attempt;
    when it lies outside, the search leaves 0 and the first attempt returns
    the host of entry 0. *)
Theorem shard_window_decides_the_choice r h lowp highp :
  ring_sorted (ring_ r) ->
  search_window true r h = Ret (lowp, highp) ->
  0 <= lowp <= highp -> highp <= vec_size (ring_ r) ->
  let p := Z.of_nat (first_at_least h (ring_ r)) in
  (lowp <= p <= highp ->
   choose_midp true r h = choose_midp false r h
   /\ forall attempt, chooseHost true r h attempt = chooseHost false r h attempt)
  /\ (~ lowp <= p <= highp ->
      choose_midp true r h = Ret 0
      /\ forall e0, nth_error (ring_ r) 0 = Some e0 ->
           chooseHost true r h 0 = Ret (Some (host_ e0))).
Proof.
  intros Hs Hw Hlh Hhi p. split.
  - intros Hp.
    assert (choose_midp true r h = choose_midp false r h) as Hmid.
    { rewrite (choose_midp_unsharded r h Hs).
      unfold choose_midp. rewrite Hw. cbn [bind fst snd].
      apply search_loop_finds; unfold search_fuel; try assumption; lia. }
    split; [exact Hmid |]. intros attempt. unfold chooseHost.
    destruct (ring_ r); [reflexivity | now rewrite Hmid].
  - intros Hout.
    destruct (search_loop_returns (search_fuel lowp highp) (ring_ r) h lowp highp)
      as [q Hq]; unfold search_fuel; try lia.
    assert (choose_midp true r h = Ret q) as Hmid
        by (unfold choose_midp; rewrite Hw; exact Hq).
    assert (q = 0) as ->.
    { destruct (search_loop_in_window _ _ _ _ _ _ Hlh Hq) as [| Hin]; [assumption |].
      destruct (search_loop_zero_or_hit _ _ _ _ _ _ Hq)
        as [| (Hpos & e & He & Hle & Hprev)]; [assumption |].
      assert (Z.to_nat q < List.length (ring_ r))%nat as Hlen
          by (unfold vec_size in Hpos; lia).
      pose proof (at_least_is_not_before h (ring_ r) _ e He Hle).
      pose proof (prev_hash_lt_is_not_after h (ring_ r) _ Hs Hlen Hprev).
      subst p. lia. }
    split; [exact Hmid |]. intros e0 He0.
    now apply (chooseHost_first_attempt true r h O e0).
Qed.

(** ** The retry offset *)

(** With sharding, on a sorted ring, the index that the search leaves for
    a window [lowp <= highp] inside the ring. *)
Lemma choose_midp_in_shard_window r h lowp highp :
  ring_sorted (ring_ r) ->
  search_window true r h = Ret (lowp, highp) ->
  0 <= lowp <= highp -> highp <= vec_size (ring_ r) ->
  choose_midp true r h
  = Ret (if (lowp <=? Z.of_nat (first_at_least h (ring_ r)))
            && (Z.of_nat (first_at_least h (ring_ r)) <=? highp)
         then Z.of_nat (successor_index h (ring_ r)) else 0).
Proof.
  intros Hs Hw Hlh Hhi.
  destruct (Z.leb_spec lowp (Z.of_nat (first_at_least h (ring_ r)))) as [Hlo | Hlo];
    [destruct (Z.leb_spec (Z.of_nat (first_at_least h (ring_ r))) highp) as [Hup | Hup] |];
    cbn [andb].
  - unfold choose_midp. rewrite Hw. cbn [bind fst snd].
    apply search_loop_finds; unfold search_fuel; try assumption; lia.
  - destruct (search_loop_returns (search_fuel lowp highp) (ring_ r) h lowp highp)
      as [q Hq]; unfold search_fuel; try lia.
    unfold choose_midp. rewrite Hw. cbn [bind fst snd]. fold (search_fuel lowp highp).
    rewrite Hq. f_equal.
    destruct (search_loop_in_window _ _ _ _ _ _ Hlh Hq) as [| Hin]; [assumption |].
    destruct (search_loop_zero_or_hit _ _ _ _ _ _ Hq)
      as [| (Hpos & e & He & Hle & Hprev)]; [assumption |].
    pose proof (at_least_is_not_before h (ring_ r) _ e He Hle). lia.
  - destruct (search_loop_returns (search_fuel lowp highp) (ring_ r) h lowp highp)
      as [q Hq]; unfold search_fuel; try lia.
    unfold choose_midp. rewrite Hw. cbn [bind fst snd]. fold (search_fuel lowp highp).
    rewrite Hq. f_equal.
    destruct (search_loop_in_window _ _ _ _ _ _ Hlh Hq) as [| Hin]; [assumption |].
    destruct (search_loop_zero_or_hit _ _ _ _ _ _ Hq)
      as [| (Hpos & e & He & Hle & Hprev)]; [assumption |].
    assert (Z.to_nat q < List.length (ring_ r))%nat as Hlen
        by (unfold vec_size in Hpos; lia).
    pose proof (prev_hash_lt_is_not_after h (ring_ r) _ Hs Hlen Hprev). lia.
Qed.

(** The retry offset on a sorted ring with entries, for a hash [h] and an
    attempt above 0.  Without sharding the search selects the index [p] of
    the first entry with a hash of at least [h], wrapped to 0 at the top, and
    [chooseHost(h, attempt)] returns the host of the entry at
    [(p + attempt) mod ring_.size()].  With sharding the same holds from the
    index that the window leaves, [p] or 0, for every window
    [lowp <= highp] inside the ring.  The offset wraps around the ring, and
    the host need not differ from that of the first attempt: an attempt that
    is a multiple of the size of the ring returns the same host. *)
Theorem retry_returns_entry_at_offset r h attempt :
  ring_ r <> [] -> ring_sorted (ring_ r) ->
  vec_size (ring_ r) < 2 ^ 63 -> 0 < attempt < 2 ^ 32 ->
  let n := vec_size (ring_ r) in
  let first := Z.of_nat (first_at_least h (ring_ r)) in
  let p := Z.of_nat (successor_index h (ring_ r)) in
  (exists e0 e,
      vec_at (ring_ r) p = Ret e0
      /\ chooseHost false r h 0 = Ret (Some (host_ e0))
      /\ vec_at (ring_ r) ((p + attempt) mod n) = Ret e
      /\ chooseHost false r h attempt = Ret (Some (host_ e)))
  /\ (forall lowp highp,
        search_window true r h = Ret (lowp, highp) ->
        0 <= lowp <= highp -> highp <= n ->
        let p' := if (lowp <=? first) && (first <=? highp) then p else 0 in
        exists e0 e,
          vec_at (ring_ r) p' = Ret e0
          /\ chooseHost true r h 0 = Ret (Some (host_ e0))
          /\ vec_at (ring_ r) ((p' + attempt) mod n) = Ret e
          /\ chooseHost true r h attempt = Ret (Some (host_ e)))
  /\ (attempt mod n = 0 ->
      chooseHost false r h attempt = chooseHost false r h 0).
Proof.
  intros Hne Hs Hsize Hatt n first p.
  pose proof (choose_midp_unsharded r h Hs) as Hun. fold p in Hun.
  repeat apply conj.
  - now apply (chooseHost_at_offset false r h attempt p).
  - intros lowp highp Hw Hlh Hhi p'.
    apply (chooseHost_at_offset true r h attempt p'); try assumption.
    subst p' first p. now apply choose_midp_in_shard_window.
  - intros Hmul.
    destruct (chooseHost_at_offset false r h attempt p Hne Hsize Hatt Hun)
      as (e0 & e & He0 & -> & He & ->).
    pose proof (choose_midp_in_range false r h p Hne Hun) as Hrange. fold n in Hrange.
    fold n in He.
    rewrite <- Z.add_mod_idemp_r, Hmul, Z.add_0_r, Z.mod_small in He by lia.
    congruence.
Qed.

(** ** The number of iterations *)

(** From a window of width below [2 ^ fuel] the search does not run out of
    fuel: each iteration that does not leave the loop halves the window. *)
Lemma search_loop_halves (fuel : nat) ring h :
  forall lowp highp,
    0 <= lowp <= highp -> highp - lowp + 1 < 2 ^ Z.of_nat fuel ->
    search_loop fuel ring h lowp highp <> OutOfFuel.
Proof.
  induction fuel as [| fuel IH]; intros lowp highp Hlo Hw.
  - change (2 ^ Z.of_nat 0) with 1 in Hw. lia.
  - cbn [search_loop].
    rewrite Nat2Z.inj_succ, Z.pow_succ_r in Hw by lia.
    set (midp := Z.quot (lowp + highp) 2).
    assert (lowp <= midp <= highp /\ lowp + highp - 1 <= 2 * midp
            /\ 2 * midp <= lowp + highp) as Hin
        by (subst midp; Z.to_euclidean_division_equations; lia).
    destruct (midp =? vec_size ring); [discriminate |].
    pose proof (vec_at_uses_no_fuel ring midp) as Hmid.
    destruct (vec_at ring midp) as [e | |]; cbn [bind];
      [| discriminate | congruence].
    assert (forall midval1,
              (if (h <=? hash_ e) && (midval1 <? h) then Ret midp
               else if (if hash_ e <? h then highp else midp - 1)
                       <? (if hash_ e <? h then midp + 1 else lowp)
                    then Ret 0
                    else search_loop fuel ring h
                           (if hash_ e <? h then midp + 1 else lowp)
                           (if hash_ e <? h then highp else midp - 1))
              <> OutOfFuel) as Hbody.
    { intros midval1.
      destruct ((h <=? hash_ e) && (midval1 <? h)); [discriminate |].
      destruct (hash_ e <? h).
      - destruct (Z.ltb_spec highp (midp + 1)); [discriminate |]. apply IH; lia.
      - destruct (Z.ltb_spec (midp - 1) lowp); [discriminate |]. apply IH; lia. }
    destruct (midp =? 0); cbn [bind]; [apply Hbody |].
    pose proof (vec_at_uses_no_fuel ring (midp - 1)) as Hprev.
    destruct (vec_at ring (midp - 1)) as [e1 | |]; cbn [bind];
      [apply Hbody | discriminate | congruence].
Qed.

(** More fuel does not change the result of a search that ended. *)
Lemma search_loop_more_fuel (fuel fuel' : nat) ring h :
  (fuel <= fuel')%nat ->
  forall lowp highp,
    search_loop fuel ring h lowp highp <> OutOfFuel ->
    search_loop fuel' ring h lowp highp = search_loop fuel ring h lowp highp.
Proof.
  revert fuel'. induction fuel as [| fuel IH]; intros fuel' Hle lowp highp;
    cbn [search_loop]; [congruence |].
  destruct fuel' as [| fuel']; [lia |]. cbn [search_loop].
  destruct (_ =? vec_size ring); [reflexivity |].
  destruct (vec_at ring _) as [e | |]; cbn [bind]; try reflexivity.
  destruct (if _ =? 0 then _ else _) as [m1 | |]; cbn [bind]; try reflexivity.
  destruct ((h <=? hash_ e) && (m1 <? h)); [reflexivity |].
  destruct (_ <? _); [reflexivity |]. apply IH. lia.
Qed.

(** Without sharding the loop of the search is left after at most
    [floor(log2(n + 1)) + 1] iterations on a ring of [n] entries: run on that
    many units of fuel, one per iteration, the search gives the index that
    [chooseHost] uses. *)
Theorem unsharded_search_is_logarithmic r h :
  let n := vec_size (ring_ r) in
  let iterations := S (Z.to_nat (Z.log2 (n + 1))) in
  search_loop iterations (ring_ r) h 0 n <> OutOfFuel
  /\ choose_midp false r h = search_loop iterations (ring_ r) h 0 n.
Proof.
  intros n iterations.
  assert (0 <= n) as Hn by (subst n; unfold vec_size; lia).
  assert (n + 1 < 2 ^ Z.of_nat iterations) as Hw.
  { subst iterations. rewrite Nat2Z.inj_succ, Z2Nat.id by apply Z.log2_nonneg.
    apply Z.log2_spec. lia. }
  assert (search_loop iterations (ring_ r) h 0 n <> OutOfFuel) as Hend
      by (apply search_loop_halves; lia).
  split; [exact Hend |].
  unfold choose_midp, search_window. cbn [bind fst snd]. fold n.
  apply search_loop_more_fuel; [| exact Hend].
  subst iterations. unfold search_fuel.
  assert (Z.log2 (n + 1) <= n); [| lia].
  destruct (Z.eq_dec n 0) as [-> | ?]; [reflexivity |].
  pose proof (Z.log2_lt_lin (n + 1)). lia.
Qed.

End LookupSafety.

Lemma chooseHost_unsharded_returns_ring_host_witness :
  exists e : RingEntry nat,
    In e [mkRingEntry 30 3%nat; mkRingEntry 10 1%nat;
          mkRingEntry 40 4%nat; mkRingEntry 20 2%nat]
    /\ chooseHost false
         (mkRing [mkRingEntry 30 3%nat; mkRingEntry 10 1%nat;
                  mkRingEntry 40 4%nat; mkRingEntry 20 2%nat] [] 9) 35 2
       = Ret (Some (host_ e)).
Proof.
  apply (chooseHost_unsharded_returns_ring_host
           (mkRing [mkRingEntry 30 3%nat; mkRingEntry 10 1%nat;
                    mkRingEntry 40 4%nat; mkRingEntry 20 2%nat] [] 9) 35 2).
  - discriminate.
  - reflexivity.
  - lia.
Defined.

Lemma chooseHost_sharded_is_unsharded_or_first_witness :
  chooseHost false Example.two_hosts_ring 0x4000000000000000 0
  = Ret (Some Example.host210)
  \/ exists e0, nth_error (ring_ Example.two_hosts_ring) 0 = Some e0
                /\ Example.host210 = host_ e0.
Proof.
  apply (chooseHost_sharded_is_unsharded_or_first
           Example.two_hosts_ring 0x4000000000000000 Example.host210).
  - solve_ring_wf.
  - reflexivity.
Defined.

(** The retry scenario: hashes 10, 20, 30, 40 and the hash 15, for which
    the search selects entry 1; the attempt 1 returns the host of entry 2. *)
Lemma retry_returns_entry_at_offset_witness :
  chooseHost false
    (mkRing [mkRingEntry 10 1%nat; mkRingEntry 20 2%nat;
             mkRingEntry 30 3%nat; mkRingEntry 40 4%nat] [] 9) 15 0
  = Ret (Some 2%nat)
  /\ chooseHost false
       (mkRing [mkRingEntry 10 1%nat; mkRingEntry 20 2%nat;
                mkRingEntry 30 3%nat; mkRingEntry 40 4%nat] [] 9) 15 1
     = Ret (Some 3%nat).
Proof.
  destruct (retry_returns_entry_at_offset
              (mkRing [mkRingEntry 10 1%nat; mkRingEntry 20 2%nat;
                       mkRingEntry 30 3%nat; mkRingEntry 40 4%nat] [] 9) 15 1)
    as ((e0 & e & He0 & Hfirst & He & Hretry) & _).
  - discriminate.
  - solve_ring_wf.
  - reflexivity.
  - lia.
  - vm_compute in He0, He. injection He0 as <-. injection He as <-.
    split; assumption.
Defined.

Lemma shard_window_decides_the_choice_witness :
  choose_midp true Example.two_hosts_ring 0x4000000000000000 = Ret 0
  /\ chooseHost true Example.two_hosts_ring 0x4000000000000000 0
     = Ret (Some Example.host210).
Proof.
  destruct (shard_window_decides_the_choice Example.two_hosts_ring
              0x4000000000000000 2 2) as [_ Hout].
  - solve_ring_wf.
  - reflexivity.
  - lia.
  - vm_compute. discriminate.
  - destruct Hout as [Hmid Hhost].
    + vm_compute. intros [H _]. apply H. reflexivity.
    + split; [exact Hmid |].
      apply (Hhost (mkRingEntry 0x0037CCF6516F8264 Example.host210)). reflexivity.
Defined.

(** ** Looking up the hash of an entry *)

(** On a sorted ring the lookup of the hash of an entry selects the first
    entry that has this hash. *)
Lemma lookup_of_entry_hash {Host : Type} (r : Ring Host) (e : RingEntry Host) :
  ring_sorted (ring_ r) -> In e (ring_ r) ->
  exists e',
    In e' (ring_ r) /\ hash_ e' = hash_ e
    /\ chooseHost false r (hash_ e) 0 = Ret (Some (host_ e')).
Proof.
  intros Hs Hin. apply In_nth_error in Hin as [j Hj].
  pose proof (at_least_is_not_before (hash_ e) (ring_ r) j e Hj (Z.le_refl _)) as Hle.
  assert (j < List.length (ring_ r))%nat as Hlen by (apply nth_error_Some; congruence).
  assert (successor_index (hash_ e) (ring_ r) = first_at_least (hash_ e) (ring_ r))
    as Hsucc
      by (destruct (successor_index_cases (hash_ e) (ring_ r)) as [[? _] | [_ ?]];
          [lia | assumption]).
  destruct (nth_error (ring_ r) (first_at_least (hash_ e) (ring_ r))) as [e' |] eqn:He';
    [| apply nth_error_None in He'; lia].
  exists e'. repeat apply conj.
  - now apply nth_error_In in He'.
  - pose proof (first_at_least_hit _ _ _ He').
    pose proof (ring_sorted_nth _ _ _ _ _ Hs Hle He' Hj). lia.
  - apply (chooseHost_first_attempt false r _ (first_at_least (hash_ e) (ring_ r)) e');
      [| assumption].
    rewrite <- Hsucc. now apply choose_midp_unsharded.
Qed.

(** Looking up the hash of an entry of a built ring, without sharding,
    returns the host of an entry that carries this hash: the first of them in
    the ring, and so the host of the entry itself when every entry with this
    hash has the same host.  An entry whose hash no other entry carries is
    reached by its own hash. *)
Theorem built_ring_entry_is_found
    (D : DoubleArith) (Host : Type) (hashKey : Host -> bool -> string)
    (xxHash64 murmurHash2 : string -> Z) (rshift_to_shard_init : Z)
    (b : bool) (hosts : list (Host * double D)) (mnw : double D)
    (min_ring_size max_ring_size : Z) hf (uh : bool) r stats (e : RingEntry Host) :
  Ring_build D hashKey xxHash64 murmurHash2 rshift_to_shard_init
    b hosts mnw min_ring_size max_ring_size hf uh = Ret (r, stats) ->
  In e (ring_ r) ->
  (exists e',
      In e' (ring_ r) /\ hash_ e' = hash_ e
      /\ chooseHost false r (hash_ e) 0 = Ret (Some (host_ e')))
  /\ ((forall e', In e' (ring_ r) -> hash_ e' = hash_ e -> host_ e' = host_ e) ->
      chooseHost false r (hash_ e) 0 = Ret (Some (host_ e))).
Proof.
  intros E Hin.
  assert (ring_sorted (ring_ r)) as Hs.
  { destruct hosts as [| entry rest].
    - unfold Ring_build in E. injection E as <- _. constructor.
    - destruct (Ring_build_inv D hashKey xxHash64 murmurHash2 rshift_to_shard_init
                  b (entry :: rest) mnw min_ring_size max_ring_size hf uh r stats
                  ltac:(discriminate) E) as (st & _ & -> & _).
      apply sort_ring_sorted. }
  destruct (lookup_of_entry_hash r e Hs Hin) as (e' & Hin' & Hhash & Hfound).
  split; [eauto |].
  intros Hsame. rewrite Hfound, (Hsame e' Hin' Hhash). reflexivity.
Qed.

Lemma built_ring_entry_is_found_witness :
  chooseHost false Example.two_hosts_ring 0xC8D37C183B62FA3B 0
  = Ret (Some Example.host0).
Proof.
  apply (built_ring_entry_is_found Binary64.arith Example.Host Example.hashKey
           Example.xxHash64 Example.murmurHash2_unused Example.rshift_to_shard_init
           true Example.two_hosts Example.half 2 2 XX_HASH true Example.two_hosts_ring
           [(size_, 2); (min_hashes_per_host_, 1); (max_hashes_per_host_, 1)]
           (mkRingEntry 0xC8D37C183B62FA3B Example.host0)).
  - exact two_hosts_build.
  - simpl. auto.
  - intros e' [<- | [<- | []]]; [discriminate | reflexivity].
Defined.

(** * Further properties of the shard table *)

Section ShardTable.

Context {Host : Type}.
Implicit Types (ring : list (RingEntry Host)) (r : Ring Host) (e : RingEntry Host).

(** The loop over the ring, lines 281-291: it appends, in ascending order,
    the value of [ring_index] at each entry whose shifted hash differs from
    [prev_shard]. *)
Lemma shard_step_fold (rshift : Z) ring :
  forall (acc : list Z) (ring_index prev_shard : Z),
    exists new last_shard,
      fold_left (shard_step rshift) ring (acc, ring_index, prev_shard)
      = (acc ++ new, ring_index + vec_size ring, last_shard)
      /\ StronglySorted Z.lt new
      /\ forall x,
           In x new <->
           exists (k : nat) e,
             x = ring_index + Z.of_nat k /\ nth_error ring k = Some e
             /\ plain_shard_index rshift (hash_ e)
                <> prev_shard_at rshift prev_shard ring k.
Proof.
  unfold vec_size.
  induction ring as [| e0 ring IH]; intros acc ring_index prev_shard.
  - exists [], prev_shard. cbn. rewrite app_nil_r, Z.add_0_r.
    split; [reflexivity |]. split; [constructor |].
    intros x. split; [intros [] | intros ([| k] & e & _ & He & _); discriminate].
  - cbn [fold_left shard_step].
    change (Z.shiftr (Z.shiftr (hash_ e0) (rshift - 1)) 1)
      with (plain_shard_index rshift (hash_ e0)).
    set (current_shard := plain_shard_index rshift (hash_ e0)).
    assert (forall new x,
              (forall y, In y new <->
                         exists (k : nat) e,
                           y = ring_index + 1 + Z.of_nat k /\ nth_error ring k = Some e
                           /\ plain_shard_index rshift (hash_ e)
                              <> prev_shard_at rshift current_shard ring k) ->
              (x = ring_index /\ current_shard <> prev_shard) \/ In x new <->
              exists (k : nat) e,
                x = ring_index + Z.of_nat k /\ nth_error (e0 :: ring) k = Some e
                /\ plain_shard_index rshift (hash_ e)
                   <> prev_shard_at rshift prev_shard (e0 :: ring) k) as Hmem.
    { intros new x Hnew. split.
      - intros [[-> Hne] | Hin].
        + exists O, e0. cbn. rewrite Z.add_0_r. auto.
        + apply Hnew in Hin as (k & e & -> & He & Hne).
          exists (S k), e. split; [lia |]. split; [assumption |].
          destruct k as [| k]; cbn in *; assumption.
      - intros ([| k] & e & -> & He & Hne).
        + left. cbn in He, Hne. injection He as <-. rewrite Z.add_0_r. auto.
        + right. apply Hnew. exists k, e. split; [lia |]. split; [assumption |].
          destruct k as [| k]; cbn in *; assumption. }
    assert (forall new,
              (forall y, In y new <->
                         exists (k : nat) e,
                           y = ring_index + 1 + Z.of_nat k /\ nth_error ring k = Some e
                           /\ plain_shard_index rshift (hash_ e)
                              <> prev_shard_at rshift current_shard ring k) ->
              Forall (fun y => ring_index < y) new) as Habove.
    { intros new Hnew. apply Forall_forall. intros y Hy.
      apply Hnew in Hy as (k & _ & -> & _). lia. }
    destruct (Z.eqb_spec current_shard prev_shard) as [Heq | Hne]; cbn [negb].
    + destruct (IH acc (ring_index + 1) prev_shard) as (new & last_shard & -> & Hs & Hnew).
      rewrite <- Heq in Hnew.
      exists new, last_shard. split; [f_equal; f_equal; cbn [List.length]; lia |].
      split; [assumption |]. intros x. rewrite <- (Hmem new x Hnew). rewrite Heq.
      split; [now right | intros [[_ []] |]; auto].
    + destruct (IH (acc ++ [ring_index]) (ring_index + 1) current_shard)
        as (new & last_shard & -> & Hs & Hnew).
      exists (ring_index :: new), last_shard.
      split; [rewrite <- app_assoc; f_equal; f_equal; cbn [List.length]; lia |].
      split; [constructor; [assumption | now apply Habove] |].
      intros x. rewrite <- (Hmem new x Hnew). cbn [In].
      split; [intros [<- |]; auto | intros [[-> _] |]; auto].
Qed.

Lemma log2_half (n : Z) : 0 <= n ->
  (if n / 2 =? 0 then 0 else Z.log2 (n / 2) + 1) = Z.log2 n.
Proof.
  intros Hn. destruct (Z.eqb_spec (n / 2) 0) as [Hz | Hnz].
  - assert (n = 0 \/ n = 1) as [-> | ->]
        by (Z.to_euclidean_division_equations; lia); reflexivity.
  - assert (1 < n) by (Z.to_euclidean_division_equations; lia).
    assert (0 < Z.log2 n) by (apply Z.log2_pos; lia).
    change 2 with (2 ^ 1) at 1. rewrite <- Z.shiftr_div_pow2 by lia.
    rewrite Z.log2_shiftr by lia. lia.
Qed.

(** The sharding block as a whole. *)
Lemma build_shards_shape (rshift_to_shard_init : Z) ring (ring_size : Z)
    (shard : list Z) (rshift : Z) :
  ring_u64 ring ->
  build_shards rshift_to_shard_init ring ring_size = Ret (shard, rshift) ->
  exists e0 interior,
    nth_error ring 0 = Some e0
    /\ rshift = Z.min 64 (rshift_to_shard_init + Z.log2 (hash_ e0))
    /\ shard = 0 :: interior ++ [ring_size]
    /\ StronglySorted Z.lt interior
    /\ forall x,
         In x interior <->
         exists (k : nat) e,
           x = Z.of_nat k + 1 /\ nth_error ring k = Some e
           /\ plain_shard_index rshift (hash_ e) <> prev_shard_at rshift 0 ring k.
Proof.
  intros Hu E. unfold build_shards in E.
  destruct ring as [| e0 ring']; [discriminate |].
  change (vec_at (e0 :: ring') 0) with (Ret e0) in E. cbn [bind] in E.
  assert (is_u64 (hash_ e0)) as [H0 H64] by (now inversion Hu).
  rewrite (msb_loop_spec 64 (hash_ e0 / 2) 0) in E
    by (unfold two64 in H64; change (Z.of_nat 64) with 64;
        Z.to_euclidean_division_equations; lia).
  rewrite Z.add_0_l, (log2_half _ H0) in E.
  set (rs := if 64 <? rshift_to_shard_init + Z.log2 (hash_ e0)
             then 64 else rshift_to_shard_init + Z.log2 (hash_ e0)) in E.
  destruct (shard_step_fold rs (e0 :: ring') [0] (0 + 1) 0)
    as (new & last_shard & Hfold & Hs & Hnew).
  rewrite Hfold in E. injection E as <- <-.
  assert (rs = Z.min 64 (rshift_to_shard_init + Z.log2 (hash_ e0))) as Hrs
      by (subst rs; destruct (Z.ltb_spec 64 (rshift_to_shard_init + Z.log2 (hash_ e0))); lia).
  exists e0, new. split; [reflexivity |]. split; [exact Hrs |].
  split; [reflexivity |]. split; [assumption |].
  intros x. rewrite Hnew. split; intros (k & e & -> & He & Hne); exists k, e;
    (split; [lia | auto]).
Qed.

End ShardTable.

Section BuiltShardTable.

Variable D : DoubleArith.
Context {Host : Type}.
Variable hashKey : Host -> bool -> string.
Variables xxHash64 murmurHash2 : string -> Z.
Variable rshift_to_shard_init : Z.

Local Abbreviation build :=
  (Ring_build D hashKey xxHash64 murmurHash2 rshift_to_shard_init).

(** What a completed build with sharding leaves. *)
Lemma Ring_build_sharded (hosts : list (Host * double D)) (mnw : double D)
    (min_ring_size max_ring_size : Z) hf (uh : bool) r stats :
  hosts <> [] ->
  build true hosts mnw min_ring_size max_ring_size hf uh = Ret (r, stats) ->
  ring_sorted (ring_ r) /\ ring_u64 (ring_ r)
  /\ build_shards rshift_to_shard_init (ring_ r)
       (d_to_u64 D (d_ceil D (ring_scale D mnw min_ring_size max_ring_size)))
     = Ret (ring_shard_ r, rshift_to_shard r).
Proof.
  intros Hne E.
  destruct (Ring_build_inv D hashKey xxHash64 murmurHash2 rshift_to_shard_init
              true hosts mnw min_ring_size max_ring_size hf uh r stats Hne E)
    as (st & _ & Hring & _ & Hshards).
  destruct (Ring_build_ring D hashKey xxHash64 murmurHash2 rshift_to_shard_init
              true hosts mnw min_ring_size max_ring_size hf uh r stats Hne E)
    as (counts & _ & _ & _ & Hperm & _).
  repeat apply conj.
  - rewrite Hring. apply sort_ring_sorted.
  - unfold ring_u64. rewrite Hperm. apply host_blocks_u64.
  - rewrite Hring. exact Hshards.
Qed.

(** The shard table as the constructor builds it: [ring_shard_] is 0, then
    in ascending order the number [k + 1] for each index [k] of the ring at
    which [prev_shard] differs from the shifted hash of the entry, and last
    [ring_size]. *)
Theorem built_shard_table_holds_index_plus_one
    (hosts : list (Host * double D)) (mnw : double D)
    (min_ring_size max_ring_size : Z) hf (uh : bool) r stats :
  hosts <> [] ->
  build true hosts mnw min_ring_size max_ring_size hf uh = Ret (r, stats) ->
  exists interior,
    ring_shard_ r
    = 0 :: interior
        ++ [d_to_u64 D (d_ceil D (ring_scale D mnw min_ring_size max_ring_size))]
    /\ StronglySorted Z.lt interior
    /\ forall x,
         In x interior <->
         exists (k : nat) e,
           x = Z.of_nat k + 1 /\ nth_error (ring_ r) k = Some e
           /\ plain_shard_index (rshift_to_shard r) (hash_ e)
              <> prev_shard_at (rshift_to_shard r) 0 (ring_ r) k.
Proof.
  intros Hne E.
  destruct (Ring_build_sharded hosts mnw min_ring_size max_ring_size hf uh r stats
              Hne E) as (_ & Hu & Hshards).
  destruct (build_shards_shape _ _ _ _ _ Hu Hshards)
    as (e0 & interior & _ & _ & Hshard & Hs & Hin).
  exists interior. auto.
Qed.

(** A 64-bit value shifted right by [n] bits is below [2 ^ (64 - n)]. *)
Lemma shiftr_u64_bound (h n : Z) :
  is_u64 h -> 0 <= n <= 64 -> 0 <= Z.shiftr h n < 2 ^ (64 - n).
Proof.
  intros [Hlo Hhi] Hn. rewrite Z.shiftr_div_pow2 by lia.
  assert (0 < 2 ^ n) by (apply Z.pow_pos_nonneg; lia).
  split; [apply Z.div_pos; lia |].
  apply Z.div_lt_upper_bound; [assumption |].
  rewrite <- Z.pow_add_r by lia. replace (n + (64 - n)) with 64 by lia. exact Hhi.
Qed.

Lemma shiftr_zero_below (h n : Z) :
  0 <= h -> 0 <= n -> (Z.shiftr h n = 0 <-> h < 2 ^ n).
Proof.
  intros Hh Hn. rewrite Z.shiftr_div_pow2 by lia.
  assert (0 < 2 ^ n) by (apply Z.pow_pos_nonneg; lia).
  split; intros E.
  - apply Z.div_small_iff in E; lia.
  - apply Z.div_small. lia.
Qed.

(** The shift of a completed build: [rshift_to_shard] is the initial value
    plus the position of the highest set bit of the least hash, capped at 64.
    When the initial value is at least 1 it is a shift between 1 and 64 that
    moves the least hash to 0, so that 1 is never recorded as the start of a
    shard; and the
    shard index that [chooseHost] computes for a hash [h] is
    [h >> rshift_to_shard], a number below [2 ^ (64 - rshift_to_shard)]. *)
Theorem built_rshift_moves_least_hash_to_zero
    (hosts : list (Host * double D)) (mnw : double D)
    (min_ring_size max_ring_size : Z) hf (uh : bool) r stats :
  hosts <> [] ->
  build true hosts mnw min_ring_size max_ring_size hf uh = Ret (r, stats) ->
  exists e0,
    nth_error (ring_ r) 0 = Some e0
    /\ rshift_to_shard r = Z.min 64 (rshift_to_shard_init + Z.log2 (hash_ e0))
    /\ (1 <= rshift_to_shard_init ->
        1 <= rshift_to_shard r <= 64
        /\ hash_ e0 < 2 ^ rshift_to_shard r
        /\ plain_shard_index (rshift_to_shard r) (hash_ e0) = 0
        /\ ~ In 1 (removelast (ring_shard_ r))
        /\ forall h, is_u64 h ->
             shard_index_of (rshift_to_shard r) h = Z.shiftr h (rshift_to_shard r)
             /\ 0 <= shard_index_of (rshift_to_shard r) h
                < 2 ^ (64 - rshift_to_shard r)).
Proof.
  intros Hne E.
  destruct (Ring_build_sharded hosts mnw min_ring_size max_ring_size hf uh r stats
              Hne E) as (_ & Hu & Hshards).
  destruct (build_shards_shape _ _ _ _ _ Hu Hshards)
    as (e0 & interior & He0 & Hrs & Hshard & Hs & Hin).
  exists e0. split; [assumption |]. split; [assumption |]. intros Hinit.
  assert (is_u64 (hash_ e0)) as [H0 H64].
  { unfold ring_u64 in Hu. rewrite Forall_forall in Hu. apply Hu.
    now apply nth_error_In in He0. }
  pose proof (Z.log2_nonneg (hash_ e0)) as Hlog.
  assert (1 <= rshift_to_shard r <= 64) as Hr by lia.
  assert (hash_ e0 < 2 ^ rshift_to_shard r) as Hlt.
  { destruct (Z.eq_dec (hash_ e0) 0) as [-> | Hnz];
      [apply Z.pow_pos_nonneg; lia |].
    destruct (Z.log2_spec (hash_ e0)) as [_ Hup]; [lia |].
    destruct (Z.le_gt_cases (rshift_to_shard_init + Z.log2 (hash_ e0)) 64).
    - eapply Z.lt_le_trans; [exact Hup |]. apply Z.pow_le_mono_r; lia.
    - replace (rshift_to_shard r) with 64 by lia. exact H64. }
  assert (plain_shard_index (rshift_to_shard r) (hash_ e0) = 0) as Hzero
      by (rewrite plain_shard_index_shiftr; apply shiftr_zero_below; lia).
  repeat apply conj; try assumption; try lia.
  - rewrite Hshard. change (0 :: interior ++ [?x]) with ((0 :: interior) ++ [x]).
    rewrite removelast_last. cbn [In]. intros [H | H]; [discriminate |].
    apply Hin in H as (k & e & Hk & He & Hneq).
    assert (k = O) as -> by lia. rewrite He0 in He. injection He as <-.
    unfold prev_shard_at in Hneq. congruence.
  - intros h Hh. rewrite (shard_index_of_shiftr _ _ Hh) by lia.
    split; [reflexivity |]. apply shiftr_u64_bound; [assumption | lia].
Qed.

Lemma vec_at_outside {A : Type} (v : list A) (i : Z) :
  vec_size v <= i -> vec_at v i = Undefined.
Proof.
  intros Hi. unfold vec_at.
  destruct (Z.ltb_spec i (vec_size v)); [lia |]. now rewrite andb_false_r.
Qed.

(** With sharding, on a built ring that has at least [ring_size] entries,
    for the initial shift of at least 1: [chooseHost] returns a host of the
    ring for every hash whose shard index and the index after it are inside
    [ring_shard_], and reads outside [ring_shard_] for every other hash.  It
    never reads outside [ring_]. *)
Theorem sharded_lookup_is_defined_inside_shard_table
    (hosts : list (Host * double D)) (mnw : double D)
    (min_ring_size max_ring_size : Z) hf (uh : bool) r stats h attempt :
  hosts <> [] ->
  build true hosts mnw min_ring_size max_ring_size hf uh = Ret (r, stats) ->
  1 <= rshift_to_shard_init ->
  0 <= d_to_u64 D (d_ceil D (ring_scale D mnw min_ring_size max_ring_size))
    <= vec_size (ring_ r) ->
  vec_size (ring_ r) < 2 ^ 63 -> is_u64 h -> 0 <= attempt < 2 ^ 32 ->
  (shard_index_of (rshift_to_shard r) h + 1 < vec_size (ring_shard_ r) ->
   exists e, In e (ring_ r) /\ chooseHost true r h attempt = Ret (Some (host_ e)))
  /\ (vec_size (ring_shard_ r) <= shard_index_of (rshift_to_shard r) h + 1 ->
      chooseHost true r h attempt = Undefined).
Proof.
  intros Hhosts E Hinit Hrs Hsize Hh Hatt.
  destruct (Ring_build_sharded hosts mnw min_ring_size max_ring_size hf uh
              r stats Hhosts E) as (_ & Hu & Hshards).
  destruct (build_shards_shape _ _ _ _ _ Hu Hshards)
    as (e0 & interior & He0 & Hr & Hshard & _ & Hin).
  assert (ring_ r <> []) as Hne by (intros Hnil; rewrite Hnil in He0; discriminate).
  pose proof (Z.log2_nonneg (hash_ e0)) as Hlog.
  assert (0 <= shard_index_of (rshift_to_shard r) h) as Hi0.
  { rewrite shard_index_of_shiftr by (assumption || lia).
    apply Z.shiftr_nonneg. destruct Hh. assumption. }
  split.
  - intros Hi1.
    assert (Forall (fun x => 0 <= x <= vec_size (ring_ r)) (ring_shard_ r)) as Hall.
    { rewrite Hshard. constructor; [unfold vec_size; lia |].
      apply Forall_app. split; [| now repeat constructor].
      apply Forall_forall. intros x Hx. apply Hin in Hx as (k & e & -> & He & _).
      assert (k < List.length (ring_ r))%nat by (apply nth_error_Some; congruence).
      unfold vec_size. lia. }
    rewrite Forall_forall in Hall.
    destruct (vec_at_in_range (ring_shard_ r) (shard_index_of (rshift_to_shard r) h))
      as [lowp Hlowp]; [lia |].
    destruct (vec_at_in_range (ring_shard_ r)
                (shard_index_of (rshift_to_shard r) h + 1))
      as [highp Hhighp]; [lia |].
    apply (chooseHost_in_window true r h attempt lowp highp); try assumption.
    + unfold search_window. now rewrite Hlowp, Hhighp.
    + apply Hall. apply vec_at_Ret in Hlowp as [_ H]. now apply nth_error_In in H.
    + apply Hall. apply vec_at_Ret in Hhighp as [_ H]. now apply nth_error_In in H.
  - intros Hout. rewrite (chooseHost_with_entries true r h attempt Hne).
    unfold choose_midp, search_window.
    rewrite (vec_at_outside (ring_shard_ r) _ Hout).
    pose proof (vec_at_uses_no_fuel (ring_shard_ r)
                  (shard_index_of (rshift_to_shard r) h)) as Hfuel.
    destruct (vec_at (ring_shard_ r) (shard_index_of (rshift_to_shard r) h));
      cbn [bind]; congruence.
Qed.

(** Up to the first start of a shard that the table records, every entry has
    the shifted hash 0. *)
Lemma prev_shard_zero_before_first_start (rshift : Z) (ring : list (RingEntry Host))
    (x : Z) (rest : list Z) :
  StronglySorted Z.lt (x :: rest) ->
  (forall y,
      In y (x :: rest) <->
      exists (k : nat) e,
        y = Z.of_nat k + 1 /\ nth_error ring k = Some e
        /\ plain_shard_index rshift (hash_ e) <> prev_shard_at rshift 0 ring k) ->
  forall j : nat, Z.of_nat j < x -> (j < List.length ring)%nat ->
    prev_shard_at rshift 0 ring j = 0.
Proof.
  intros Hs Hin. induction j as [| j IH]; intros Hj Hlen; [reflexivity |].
  cbn [prev_shard_at].
  destruct (nth_error ring j) as [e |] eqn:He; [| reflexivity].
  specialize (IH ltac:(lia) ltac:(lia)).
  destruct (Z.eq_dec (plain_shard_index rshift (hash_ e)) 0) as [| Hnz]; [assumption |].
  exfalso.
  assert (In (Z.of_nat j + 1) (x :: rest)) as Hmem
      by (apply Hin; exists j, e; rewrite IH; auto).
  inversion Hs as [| ? ? _ Hx]; subst. rewrite Forall_forall in Hx.
  destruct Hmem as [Hmem | Hmem]; [lia | specialize (Hx _ Hmem); lia].
Qed.

(** With sharding, a hash of shard index 0 is looked up as without sharding:
    on a built ring whose number of entries is [ring_size], for the initial
    shift of at least 1 and every hash [h] with [h >> rshift_to_shard = 0],
    both lookups give the same result at every attempt. *)
Theorem sharded_lookup_agrees_in_first_shard
    (hosts : list (Host * double D)) (mnw : double D)
    (min_ring_size max_ring_size : Z) hf (uh : bool) r stats h attempt :
  build true hosts mnw min_ring_size max_ring_size hf uh = Ret (r, stats) ->
  1 <= rshift_to_shard_init ->
  d_to_u64 D (d_ceil D (ring_scale D mnw min_ring_size max_ring_size))
  = vec_size (ring_ r) ->
  is_u64 h -> Z.shiftr h (rshift_to_shard r) = 0 ->
  chooseHost true r h attempt = chooseHost false r h attempt.
Proof.
  intros E Hinit Hrs Hh Hshift.
  destruct hosts as [| entry rest'].
  { unfold Ring_build in E. injection E as <- _. reflexivity. }
  destruct (Ring_build_sharded (entry :: rest') mnw min_ring_size max_ring_size hf uh
              r stats ltac:(discriminate) E) as (Hsorted & Hu & Hshards).
  destruct (build_shards_shape _ _ _ _ _ Hu Hshards)
    as (e0 & interior & He0 & Hr & Hshard & Hs & Hin).
  assert (ring_ r <> []) as Hne by (intros Hnil; rewrite Hnil in He0; discriminate).
  pose proof (Z.log2_nonneg (hash_ e0)) as Hlog.
  assert (1 <= rshift_to_shard r) as Hr1 by lia.
  assert (shard_index_of (rshift_to_shard r) h = 0) as Hidx
      by (rewrite shard_index_of_shiftr; assumption).
  pose proof (first_at_least_le_length h (ring_ r)) as Hfal.
  assert (exists highp,
             search_window true r h = Ret (0, highp)
             /\ Z.of_nat (first_at_least h (ring_ r)) <= highp <= vec_size (ring_ r))
    as (highp & Hw & Hhighp).
  { unfold search_window. rewrite Hidx, Hshard.
    change (vec_at (0 :: ?l) 0) with (Ret 0). cbn [bind].
    destruct interior as [| x rest].
    - exists (vec_size (ring_ r)). rewrite Hrs. split; [reflexivity |].
      unfold vec_size. lia.
    - exists x. split.
      { replace (vec_at _ (0 + 1)) with (Ret x); [reflexivity |].
        symmetry. apply vec_at_Ret. split; [| reflexivity].
        unfold vec_size. cbn [List.length app]. lia. }
      destruct (proj1 (Hin x) (or_introl eq_refl)) as (k & e & Hx & He & Hneq).
      assert (k < List.length (ring_ r))%nat as Hk by (apply nth_error_Some; congruence).
      rewrite (prev_shard_zero_before_first_start _ _ x rest Hs Hin k) in Hneq
        by (assumption || lia).
      assert (h <= hash_ e) as Hle.
      { destruct (Z.le_gt_cases h (hash_ e)) as [| Hgt]; [assumption | exfalso].
        apply Hneq. rewrite plain_shard_index_shiftr.
        assert (is_u64 (hash_ e)) as [He0' _].
        { unfold ring_u64 in Hu. rewrite Forall_forall in Hu. apply Hu.
          now apply nth_error_In in He. }
        destruct Hh as [Hh0 _].
        apply shiftr_zero_below; [assumption | lia |].
        apply (shiftr_zero_below h) in Hshift; lia. }
      pose proof (at_least_is_not_before h (ring_ r) k e He Hle).
      unfold vec_size. lia. }
  assert (choose_midp true r h = choose_midp false r h) as Hmid.
  { rewrite (choose_midp_unsharded r h Hsorted).
    unfold choose_midp. rewrite Hw. cbn [bind fst snd].
    apply search_loop_finds; unfold search_fuel; try assumption; lia. }
  now rewrite !chooseHost_with_entries, Hmid by assumption.
Qed.

End BuiltShardTable.

Lemma built_shard_table_holds_index_plus_one_witness :
  exists interior,
    ring_shard_ Example.two_hosts_ring = 0 :: interior ++ [2]
    /\ StronglySorted Z.lt interior.
Proof.
  destruct (built_shard_table_holds_index_plus_one Binary64.arith Example.hashKey
              Example.xxHash64 Example.murmurHash2_unused Example.rshift_to_shard_init
              Example.two_hosts Example.half 2 2 XX_HASH true Example.two_hosts_ring
              [(size_, 2); (min_hashes_per_host_, 1); (max_hashes_per_host_, 1)])
    as (interior & Hshard & Hsorted & _).
  - discriminate.
  - exact two_hosts_build.
  - exists interior. split; assumption.
Defined.

Lemma built_rshift_moves_least_hash_to_zero_witness :
  exists e0,
    nth_error (ring_ Example.two_hosts_ring) 0 = Some e0
    /\ rshift_to_shard Example.two_hosts_ring
       = Z.min 64 (Example.rshift_to_shard_init + Z.log2 (hash_ e0)).
Proof.
  destruct (built_rshift_moves_least_hash_to_zero Binary64.arith Example.hashKey
              Example.xxHash64 Example.murmurHash2_unused Example.rshift_to_shard_init
              Example.two_hosts Example.half 2 2 XX_HASH true Example.two_hosts_ring
              [(size_, 2); (min_hashes_per_host_, 1); (max_hashes_per_host_, 1)])
    as (e0 & He0 & Hr & _).
  - discriminate.
  - exact two_hosts_build.
  - exists e0. split; assumption.
Defined.

Lemma sharded_lookup_is_defined_inside_shard_table_witness :
  (exists e,
      In e (ring_ Example.two_hosts_ring)
      /\ chooseHost true Example.two_hosts_ring 0x4000000000000000 3
         = Ret (Some (host_ e)))
  /\ chooseHost true Example.two_hosts_ring 0xC000000000000000 3 = Undefined.
Proof.
  split.
  - apply (sharded_lookup_is_defined_inside_shard_table Binary64.arith
             Example.hashKey Example.xxHash64 Example.murmurHash2_unused
             Example.rshift_to_shard_init
             Example.two_hosts Example.half 2 2 XX_HASH true Example.two_hosts_ring
             [(size_, 2); (min_hashes_per_host_, 1); (max_hashes_per_host_, 1)]
             0x4000000000000000 3).
    + discriminate.
    + exact two_hosts_build.
    + vm_compute. discriminate.
    + vm_compute. split; discriminate.
    + reflexivity.
    + unfold is_u64, two64. lia.
    + lia.
    + reflexivity.
  - apply (sharded_lookup_is_defined_inside_shard_table Binary64.arith
             Example.hashKey Example.xxHash64 Example.murmurHash2_unused
             Example.rshift_to_shard_init
             Example.two_hosts Example.half 2 2 XX_HASH true Example.two_hosts_ring
             [(size_, 2); (min_hashes_per_host_, 1); (max_hashes_per_host_, 1)]
             0xC000000000000000 3).
    + discriminate.
    + exact two_hosts_build.
    + vm_compute. discriminate.
    + vm_compute. split; discriminate.
    + reflexivity.
    + unfold is_u64, two64. lia.
    + lia.
    + vm_compute. discriminate.
Defined.

Lemma sharded_lookup_agrees_in_first_shard_witness :
  chooseHost true Example.two_hosts_ring 0x0040000000000000 1
  = chooseHost false Example.two_hosts_ring 0x0040000000000000 1.
Proof.
  apply (sharded_lookup_agrees_in_first_shard Binary64.arith Example.hashKey
           Example.xxHash64 Example.murmurHash2_unused Example.rshift_to_shard_init
           Example.two_hosts Example.half 2 2 XX_HASH true Example.two_hosts_ring
           [(size_, 2); (min_hashes_per_host_, 1); (max_hashes_per_host_, 1)]).
  - exact two_hosts_build.
  - vm_compute. discriminate.
  - vm_compute. reflexivity.
  - unfold is_u64, two64. lia.
  - reflexivity.
Defined.

(** * Further properties of the constructor *)

(** ** The hosts of the ring *)

(** A host that [chooseHost] returns is the host of an entry of the ring. *)
Lemma chooseHost_Some_in_ring {Host : Type} (b : bool) (r : Ring Host)
    (h attempt : Z) (x : Host) :
  chooseHost b r h attempt = Ret (Some x) ->
  exists e, In e (ring_ r) /\ x = host_ e.
Proof.
  unfold chooseHost. destruct (ring_ r) as [| e0 l]; [discriminate |].
  intros E. apply bind_Ret_inv in E as (p & _ & E).
  apply bind_Ret_inv in E as (e & He & E). injection E as <-.
  exists e. split; [| reflexivity].
  apply vec_at_Ret in He as [_ He]. now apply nth_error_In in He.
Qed.

Section BuiltRing.

Variable D : DoubleArith.
Context {Host : Type}.
Variable hashKey : Host -> bool -> string.
Variables xxHash64 murmurHash2 : string -> Z.
Variable rshift_to_shard_init : Z.

Local Abbreviation blocks := (host_blocks hashKey xxHash64 murmurHash2).
Local Abbreviation build :=
  (Ring_build D hashKey xxHash64 murmurHash2 rshift_to_shard_init).

(** Each entry of the blocks is the entry number [i] of an input host. *)
Lemma host_blocks_entries {W : Type} hf (uh : bool) (hosts : list (Host * W))
    (counts : list Z) (e : RingEntry Host) :
  In e (blocks hf uh hosts counts) ->
  exists entry i,
    In entry hosts /\ host_ e = fst entry /\ 0 <= i
    /\ hash_ e = hash_of xxHash64 murmurHash2 hf
                   (hash_key_of (hashKey (fst entry) uh) i).
Proof.
  revert counts. induction hosts as [| entry rest IH]; intros [| n counts];
    cbn [host_blocks]; try (intros []).
  intros Hin. apply in_app_or in Hin as [Hin | Hin].
  - unfold virtual_nodes in Hin. apply in_map_iff in Hin as (k & <- & _).
    exists entry, (0 + Z.of_nat k). cbn. repeat split; auto; lia.
  - destruct (IH counts Hin) as (entry' & i & Hentry & Hrest).
    exists entry', i. split; [now right | exact Hrest].
Qed.

(** Every entry of a built ring belongs to an input host and carries the
    hash of that host's key followed by an underscore and a number; so a
    host that [chooseHost] returns from a built ring, with or without
    sharding, for whatever hash and attempt, is an input host. *)
Theorem built_ring_holds_input_hosts_only (b : bool)
    (hosts : list (Host * double D)) (mnw : double D)
    (min_ring_size max_ring_size : Z) hf (uh : bool) r stats :
  build b hosts mnw min_ring_size max_ring_size hf uh = Ret (r, stats) ->
  (forall e, In e (ring_ r) ->
     exists entry i,
       In entry hosts /\ host_ e = fst entry /\ 0 <= i
       /\ hash_ e = hash_of xxHash64 murmurHash2 hf
                      (hash_key_of (hashKey (fst entry) uh) i))
  /\ (forall (b' : bool) h attempt x,
        chooseHost b' r h attempt = Ret (Some x) ->
        exists entry, In entry hosts /\ x = fst entry).
Proof.
  intros E.
  assert (forall e, In e (ring_ r) ->
            exists entry i,
              In entry hosts /\ host_ e = fst entry /\ 0 <= i
              /\ hash_ e = hash_of xxHash64 murmurHash2 hf
                             (hash_key_of (hashKey (fst entry) uh) i)) as Hentries.
  { destruct hosts as [| entry rest].
    - unfold Ring_build in E. injection E as <- _. intros e [].
    - destruct (Ring_build_ring D hashKey xxHash64 murmurHash2 rshift_to_shard_init
                  b (entry :: rest) mnw min_ring_size max_ring_size hf uh r stats
                  ltac:(discriminate) E) as (counts & _ & _ & _ & Hperm & _).
      intros e He. apply (Permutation_in _ Hperm) in He.
      now apply host_blocks_entries in He. }
  split; [exact Hentries |].
  intros b' h attempt x Hx.
  apply chooseHost_Some_in_ring in Hx as (e & He & ->).
  destruct (Hentries e He) as (entry & _ & Hentry & Hhost & _). eauto.
Qed.

(** ** The gauges, whatever the arithmetic *)

Lemma fold_min_least (d : Z) (counts : list Z) :
  counts <> [] -> fold_right Z.min d counts = Z.min d (least counts).
Proof.
  destruct counts as [| n counts]; [congruence |]. intros _.
  cbn [least fold_right]. induction counts as [| x l IH]; cbn [fold_right]; lia.
Qed.

Lemma fold_max_greatest (counts : list Z) :
  counts <> [] -> Forall (fun n => 0 <= n) counts ->
  fold_right Z.max 0 counts = greatest counts.
Proof.
  destruct counts as [| n counts]; [congruence |]. intros _ Hall.
  inversion Hall as [| ? ? Hn _]; subst. cbn [greatest fold_right]. clear Hall.
  induction counts as [| x l IH]; cbn [fold_right]; lia.
Qed.

Lemma least_is_lower_bound (counts : list Z) :
  Forall (fun n => least counts <= n) counts.
Proof.
  destruct counts as [| n counts]; [constructor |]. cbn [least].
  constructor.
  - induction counts as [| x l IH]; cbn [fold_right]; lia.
  - induction counts as [| x l IH]; cbn [fold_right]; constructor; [lia |].
    eapply Forall_impl; [| exact IH]. cbn. intros; lia.
Qed.

Lemma greatest_is_upper_bound (counts : list Z) :
  Forall (fun n => n <= greatest counts) counts.
Proof.
  destruct counts as [| n counts]; [constructor |]. cbn [greatest].
  constructor.
  - induction counts as [| x l IH]; cbn [fold_right]; lia.
  - induction counts as [| x l IH]; cbn [fold_right]; constructor; [lia |].
    eapply Forall_impl; [| exact IH]. cbn. intros; lia.
Qed.

(** The gauges of a completed build from a non-empty host set, on doubles as
    in exact arithmetic: three gauges are set; [size] is [ring_size], the
    ceiling of the scale; [max_hashes_per_host] is the greatest of the
    numbers of entries placed per host, [min_hashes_per_host] the least of
    them and of [ring_size]; the number of every host lies between the two;
    and the ring has as many entries as these numbers sum to. *)
Theorem gauges_bracket_the_counts (b : bool)
    (hosts : list (Host * double D)) (mnw : double D)
    (min_ring_size max_ring_size : Z) hf (uh : bool) r stats :
  hosts <> [] ->
  build b hosts mnw min_ring_size max_ring_size hf uh = Ret (r, stats) ->
  let scale := ring_scale D mnw min_ring_size max_ring_size in
  let ring_size := d_to_u64 D (d_ceil D scale) in
  exists counts lo hi,
    hashes_per_host D hashKey xxHash64 murmurHash2 scale hf uh
      (initial_state D ring_size) hosts = Ret counts
    /\ List.length counts = List.length hosts
    /\ vec_size (ring_ r) = sum_counts counts
    /\ stats = [(size_, ring_size); (min_hashes_per_host_, lo);
                (max_hashes_per_host_, hi)]
    /\ lo = Z.min ring_size (least counts)
    /\ hi = greatest counts
    /\ Forall (fun n => lo <= n <= hi) counts
    /\ lo <= hi.
Proof.
  intros Hne E scale ring_size.
  destruct (Ring_build_ring D hashKey xxHash64 murmurHash2 rshift_to_shard_init
              b hosts mnw min_ring_size max_ring_size hf uh r stats Hne E)
    as (counts & Hcounts & Hlen & Hnonneg & _ & Hsize & Hstats).
  fold scale ring_size in Hcounts, Hstats.
  assert (counts <> []) as Hcne
      by (destruct counts; [destruct hosts; [congruence | discriminate] | discriminate]).
  rewrite (fold_min_least _ _ Hcne), (fold_max_greatest _ Hcne Hnonneg) in Hstats.
  pose proof (least_is_lower_bound counts) as Hlo.
  pose proof (greatest_is_upper_bound counts) as Hhi.
  assert (Forall (fun n => Z.min ring_size (least counts) <= n <= greatest counts)
            counts) as Hall.
  { rewrite Forall_forall in *. intros n Hn.
    specialize (Hlo n Hn). specialize (Hhi n Hn). lia. }
  exists counts, (Z.min ring_size (least counts)), (greatest counts).
  repeat apply conj; try assumption; try reflexivity.
  destruct counts as [| n counts]; [congruence |].
  inversion Hall; subst. lia.
Qed.

End BuiltRing.

Lemma built_ring_holds_input_hosts_only_witness :
  exists entry, In entry Example.two_hosts /\ Example.host210 = fst entry.
Proof.
  destruct (built_ring_holds_input_hosts_only Binary64.arith Example.hashKey
              Example.xxHash64 Example.murmurHash2_unused Example.rshift_to_shard_init
              true Example.two_hosts Example.half 2 2 XX_HASH true
              Example.two_hosts_ring
              [(size_, 2); (min_hashes_per_host_, 1); (max_hashes_per_host_, 1)])
    as [_ Hhosts].
  - exact two_hosts_build.
  - apply (Hhosts true 0x4000000000000000 0 Example.host210). reflexivity.
Defined.

Lemma gauges_bracket_the_counts_witness :
  exists counts lo hi,
    List.length counts = List.length Example.two_hosts
    /\ vec_size (ring_ Example.two_hosts_ring) = sum_counts counts
    /\ [(size_, 2); (min_hashes_per_host_, 1); (max_hashes_per_host_, 1)]
       = [(size_, 2); (min_hashes_per_host_, lo); (max_hashes_per_host_, hi)]
    /\ Forall (fun n => lo <= n <= hi) counts.
Proof.
  destruct (gauges_bracket_the_counts Binary64.arith Example.hashKey
              Example.xxHash64 Example.murmurHash2_unused Example.rshift_to_shard_init
              true Example.two_hosts Example.half 2 2 XX_HASH true
              Example.two_hosts_ring
              [(size_, 2); (min_hashes_per_host_, 1); (max_hashes_per_host_, 1)])
    as (counts & lo & hi & _ & Hlen & Hsize & Hstats & _ & _ & Hall & _).
  - discriminate.
  - exact two_hosts_build.
  - exists counts, lo, hi. repeat split; assumption.
Defined.

(** ** The keys that are hashed *)

(** The decimal digits of a number hold no underscore. *)
Lemma string_of_uint_has_no_underscore (d : Decimal.uint) (s1 s2 : string) :
  NilEmpty.string_of_uint d <> (s1 ++ String "_" s2)%string.
Proof.
  revert s1. induction d; intros [| c s1]; cbn; try discriminate;
    intros [= _ H]; now apply IHd in H.
Qed.

Lemma StrCat_u64_inj (i j : Z) :
  0 <= i -> 0 <= j -> StrCat_u64 i = StrCat_u64 j -> i = j.
Proof.
  intros Hi Hj E. unfold StrCat_u64 in E.
  assert (Some (N.to_uint (Z.to_N i)) = Some (N.to_uint (Z.to_N j))) as E'
      by (rewrite <- !NilEmpty.usu; now f_equal).
  injection E' as E'. apply (f_equal N.of_uint) in E'.
  rewrite !DecimalN.Unsigned.of_to in E'. lia.
Qed.

(** The underscore that ends the key is the last one of the hashed string. *)
Lemma underscore_splits_once (key1 key2 digits1 digits2 : string) :
  (forall s1 s2, digits1 <> (s1 ++ String "_" s2)%string) ->
  (forall s1 s2, digits2 <> (s1 ++ String "_" s2)%string) ->
  (key1 ++ String "_" digits1 = key2 ++ String "_" digits2)%string ->
  key1 = key2 /\ digits1 = digits2.
Proof.
  intros H1 H2. revert key2.
  induction key1 as [| c key1 IH]; intros [| c' key2]; cbn; intros E.
  - injection E as E. auto.
  - injection E as _ E. now apply H1 in E.
  - injection E as _ E. symmetry in E. now apply H2 in E.
  - injection E as -> E. apply IH in E as [-> ->]. auto.
Qed.

(** The string that is hashed for an entry determines the key of the host
    and the number of the entry: the entries of one host are hashed from
    pairwise distinct strings, and the strings of two hosts coincide only
    when their keys do. *)
Theorem hash_key_determines_key_and_number (key1 key2 : string) (i j : Z) :
  0 <= i -> 0 <= j ->
  hash_key_of key1 i = hash_key_of key2 j -> key1 = key2 /\ i = j.
Proof.
  intros Hi Hj E. unfold hash_key_of in E.
  apply underscore_splits_once in E as [-> E].
  - split; [reflexivity | now apply StrCat_u64_inj].
  - intros s1 s2. apply string_of_uint_has_no_underscore.
  - intros s1 s2. apply string_of_uint_has_no_underscore.
Qed.

Lemma hash_key_determines_key_and_number_witness :
  "host0"%string = "host0"%string /\ 12 = 12.
Proof.
  apply (hash_key_determines_key_and_number "host0" "host0" 12 12).
  - lia.
  - lia.
  - reflexivity.
Defined.

(** ** The example of the comment *)

(** The example that the comment of the constructor walks through, lines
    189-196: the four hosts receive 2, 1, 2 and 1 entries, on doubles and in
    exact arithmetic. *)
Lemma four_hosts_counts :
  ring_scale Binary64.arith Example.quarter 6 6 = Example.six
  /\ hashes_per_host Binary64.arith Example.hashKey Example.xxHash64
       Example.murmurHash2_unused Example.six XX_HASH true
       (initial_state Binary64.arith 6) Example.four_hosts
     = Ret [2; 1; 2; 1]
  /\ hashes_per_host Exact.arith Example.hashKey Example.xxHash64
       Example.murmurHash2_unused (ring_scale Exact.arith (1 # 4) 6 6) XX_HASH true
       (initial_state Exact.arith 6) Example.four_hosts_exact
     = Ret [2; 1; 2; 1].
Proof. vm_compute. repeat split; reflexivity. Qed.

(** ** A scale of zero *)

Section ZeroScale.

Context {Host : Type}.
Variable hashKey : Host -> bool -> string.
Variables xxHash64 murmurHash2 : string -> Z.
Variable rshift_to_shard_init : Z.

Local Abbreviation build :=
  (Ring_build Exact.arith hashKey xxHash64 murmurHash2 rshift_to_shard_init).

Lemma host_blocks_of_zero_counts {W : Type} hf (uh : bool) (hosts : list (Host * W))
    (counts : list Z) :
  Forall (fun n => n = 0) counts ->
  host_blocks hashKey xxHash64 murmurHash2 hf uh hosts counts = [].
Proof.
  intros Hall. revert hosts.
  induction Hall as [| n counts -> _ IH]; intros [| entry rest]; cbn [host_blocks];
    try reflexivity.
  now rewrite IH.
Qed.

Lemma fold_min_zeros (counts : list Z) :
  Forall (fun n => n = 0) counts -> fold_right Z.min 0 counts = 0.
Proof. induction 1 as [| n counts -> _ IH]; cbn [fold_right]; lia. Qed.

Lemma fold_max_zeros (counts : list Z) :
  Forall (fun n => n = 0) counts -> fold_right Z.max 0 counts = 0.
Proof. induction 1 as [| n counts -> _ IH]; cbn [fold_right]; lia. Qed.

(** In exact arithmetic. *)
Lemma exact_zero_min_ring_size
    (hosts : list (Host * double Exact.arith)) (mnw : Q)
    (max_ring_size : Z) hf (uh : bool) :
  hosts <> [] ->
  Forall (fun entry => 0 < snd entry)%Q hosts ->
  (0 < mnw)%Q -> 0 <= max_ring_size ->
  build false hosts mnw 0 max_ring_size hf uh
  = Ret (mkRing [] [] rshift_to_shard_init,
         [(size_, 0); (min_hashes_per_host_, 0); (max_hashes_per_host_, 0)])
  /\ build true hosts mnw 0 max_ring_size hf uh = Undefined.
Proof.
  intros Hne Hpos Hw Hmax.
  destruct (exact_build_counts hashKey xxHash64 murmurHash2 hosts mnw 0 max_ring_size
              hf uh Hpos Hw ltac:(lia) Hmax)
    as (Hrs & st & counts & Hrun & Hcounts & Hfc & _).
  cbv zeta in *.
  set (scale := ring_scale Exact.arith mnw 0 max_ring_size) in *.
  assert (scale == 0)%Q as Hscale.
  { subst scale. unfold ring_scale, std_min.
    cbn [d_lt d_div d_mul d_ceil d_of_u64 Exact.arith]. unfold Exact.lt, Exact.ceil.
    assert (Qceiling (mnw * inject_Z 0) = 0) as ->
        by (rewrite (Qceiling_comp _ 0%Q); [reflexivity | ring]).
    destruct Qlt_le_dec as [Hlt | _].
    - exfalso. assert (inject_Z 0 / mnw == 0)%Q as H0 by (field; lra).
      rewrite H0 in Hlt. change 0%Q with (inject_Z 0) in Hlt.
      rewrite <- Zlt_Qlt in Hlt. lia.
    - field. lra. }
  assert (Qceiling scale = 0) as Hsize
      by (rewrite (Qceiling_comp _ _ Hscale); reflexivity).
  rewrite Hsize in Hrs.
  assert (Forall (fun n => n = 0) counts) as Hzero.
  { clear - Hfc Hscale. induction Hfc as [| entry n hosts counts Hn _ IH];
      constructor; [| assumption].
    assert (scale * snd entry == 0)%Q as Hx by (rewrite Hscale; ring).
    destruct Hn as [-> | ->].
    - now rewrite (Qfloor_comp _ _ Hx).
    - now rewrite (Qceiling_comp _ _ Hx). }
  destruct (populate_shape Exact.arith hashKey xxHash64 murmurHash2 _ hf uh hosts
              _ _ Hrun) as (counts' & Hcounts' & _ & _ & Hring & Hlo & Hhi).
  rewrite Hcounts in Hcounts'. injection Hcounts' as <-.
  rewrite Hrs in Hring, Hlo, Hhi.
  cbn [initial_state bs_ring bs_min_hashes_per_host bs_max_hashes_per_host app]
    in Hring, Hlo, Hhi.
  rewrite (host_blocks_of_zero_counts _ _ _ _ Hzero) in Hring.
  rewrite (fold_min_zeros _ Hzero) in Hlo. rewrite (fold_max_zeros _ Hzero) in Hhi.
  unfold Ring_build. destruct hosts as [| entry rest]; [congruence |].
  cbv zeta. fold scale. rewrite Hrun. cbn [bind].
  rewrite Hrs, Hring, Hlo, Hhi. split; reflexivity.
Qed.

(** On doubles: products and quotients with 0. *)
Lemma zero_mul (w : PrimFloat.float) :
  finite_positive w = true -> PrimFloat.mul PrimFloat.zero w = PrimFloat.zero.
Proof.
  unfold finite_positive. intros H. apply FloatAxioms.Prim2SF_inj.
  rewrite FloatAxioms.mul_spec.
  destruct (FloatOps.Prim2SF w) as [| | | [|] m e]; try discriminate. reflexivity.
Qed.

Lemma mul_zero (w : PrimFloat.float) :
  finite_positive w = true -> PrimFloat.mul w PrimFloat.zero = PrimFloat.zero.
Proof.
  unfold finite_positive. intros H. apply FloatAxioms.Prim2SF_inj.
  rewrite FloatAxioms.mul_spec.
  destruct (FloatOps.Prim2SF w) as [| | | [|] m e]; try discriminate. reflexivity.
Qed.

Lemma zero_div (w : PrimFloat.float) :
  finite_positive w = true -> PrimFloat.div PrimFloat.zero w = PrimFloat.zero.
Proof.
  unfold finite_positive. intros H. apply FloatAxioms.Prim2SF_inj.
  rewrite FloatAxioms.div_spec.
  destruct (FloatOps.Prim2SF w) as [| | | [|] m e]; try discriminate. reflexivity.
Qed.

(** The conversion of a [uint64_t] is not below 0. *)
Lemma binary_round_aux_not_negative (mx ex : Z) lx :
  not_negative (SpecFloat.binary_round_aux FloatOps.prec FloatOps.emax false mx ex lx).
Proof.
  unfold SpecFloat.binary_round_aux.
  destruct (SpecFloat.shr_fexp _ _ mx ex lx) as [mrs' e'].
  destruct (SpecFloat.shr_fexp _ _ _ e' _) as [mrs'' e''].
  destruct (SpecFloat.shr_m mrs''); cbn; auto.
  destruct (_ <=? _); cbn; auto.
Qed.

Lemma of_uint63_not_negative n :
  not_negative (FloatOps.Prim2SF (PrimFloat.of_uint63 n)).
Proof.
  rewrite FloatAxioms.of_uint63_spec. unfold SpecFloat.binary_normalize.
  pose proof (Uint63.to_Z_bounded n) as Hb.
  destruct (Uint63.to_Z n) as [| p | p]; [exact I | | lia].
  unfold SpecFloat.binary_round.
  destruct (SpecFloat.shl_align _ _ _) as [mz ez].
  apply binary_round_aux_not_negative.
Qed.

Lemma mul_not_negative (x y : PrimFloat.float) :
  not_negative (FloatOps.Prim2SF x) -> not_negative (FloatOps.Prim2SF y) ->
  not_negative (FloatOps.Prim2SF (PrimFloat.mul x y)).
Proof.
  rewrite FloatAxioms.mul_spec.
  destruct (FloatOps.Prim2SF x) as [sx | [|] | | [|] mx ex];
    destruct (FloatOps.Prim2SF y) as [sy | [|] | | [|] my ey];
    cbn; try tauto.
  intros _ _. apply binary_round_aux_not_negative.
Qed.

Lemma of_u64_not_below_zero (z : Z) :
  PrimFloat.ltb (Binary64.of_u64 z) PrimFloat.zero = false.
Proof.
  assert (not_negative (FloatOps.Prim2SF (Binary64.of_u64 z))) as H.
  { unfold Binary64.of_u64. destruct (z <? 2 ^ 63).
    - apply of_uint63_not_negative.
    - apply mul_not_negative; apply of_uint63_not_negative. }
  rewrite FloatAxioms.ltb_spec.
  change (FloatOps.Prim2SF PrimFloat.zero) with (SpecFloat.S754_zero false).
  destruct (FloatOps.Prim2SF (Binary64.of_u64 z)) as [s | [|] | | [|] m e];
    cbn in H |- *; try reflexivity; contradiction.
Qed.

Local Abbreviation build64 :=
  (Ring_build Binary64.arith hashKey xxHash64 murmurHash2 rshift_to_shard_init).

(** On doubles, for a scale of 0: each host leaves the state as it is. *)
Lemma binary64_populate_zero_scale hf (uh : bool)
    (hosts : list (Host * PrimFloat.float)) :
  Forall (fun entry => finite_positive (snd entry) = true) hosts ->
  populate Binary64.arith hashKey xxHash64 murmurHash2 PrimFloat.zero hf uh
    (@mkBuildState Binary64.arith Host [] PrimFloat.zero PrimFloat.zero 0 0) hosts
  = Ret (@mkBuildState Binary64.arith Host [] PrimFloat.zero PrimFloat.zero 0 0).
Proof.
  induction 1 as [| entry rest Hw _ IH]; cbn [populate]; [reflexivity |].
  unfold host_step. cbv zeta.
  cbn [bs_target_hashes bs_ring bs_current_hashes bs_min_hashes_per_host
         bs_max_hashes_per_host d_add d_mul double Binary64.arith].
  rewrite (zero_mul _ Hw).
  change (PrimFloat.add PrimFloat.zero PrimFloat.zero) with PrimFloat.zero.
  replace (place_hashes Binary64.arith xxHash64 murmurHash2
             (place_fuel Binary64.arith PrimFloat.zero) hf (fst entry)
             (hashKey (fst entry) uh) PrimFloat.zero [] PrimFloat.zero 0)
    with (@Ret (list (RingEntry Host) * double Binary64.arith * Z)
            ([], PrimFloat.zero, 0))
    by (destruct (place_fuel Binary64.arith PrimFloat.zero); reflexivity).
  cbn [bind fst]. exact IH.
Qed.

(** On doubles. *)
Lemma binary64_zero_min_ring_size
    (hosts : list (Host * PrimFloat.float)) (mnw : PrimFloat.float)
    (max_ring_size : Z) hf (uh : bool) :
  hosts <> [] ->
  Forall (fun entry => finite_positive (snd entry) = true) hosts ->
  finite_positive mnw = true ->
  build64 false hosts mnw 0 max_ring_size hf uh
  = Ret (mkRing [] [] rshift_to_shard_init,
         [(size_, 0); (min_hashes_per_host_, 0); (max_hashes_per_host_, 0)])
  /\ build64 true hosts mnw 0 max_ring_size hf uh = Undefined.
Proof.
  intros Hne Hpos Hw.
  assert (ring_scale Binary64.arith mnw 0 max_ring_size = PrimFloat.zero) as Hscale.
  { unfold ring_scale, std_min.
    cbn [d_lt d_div d_mul d_ceil d_of_u64 Binary64.arith].
    change (Binary64.of_u64 0) with PrimFloat.zero. rewrite (mul_zero _ Hw).
    change (Binary64.ceil PrimFloat.zero) with PrimFloat.zero.
    rewrite (zero_div _ Hw). now rewrite of_u64_not_below_zero. }
  unfold Ring_build. destruct hosts as [| entry rest]; [congruence |].
  cbv zeta. rewrite Hscale.
  change (d_to_u64 Binary64.arith (d_ceil Binary64.arith PrimFloat.zero)) with 0.
  change (initial_state Binary64.arith 0)
    with (@mkBuildState Binary64.arith Host [] PrimFloat.zero PrimFloat.zero 0 0).
  rewrite (binary64_populate_zero_scale hf uh _ Hpos). split; reflexivity.
Qed.

(** For [min_ring_size = 0] the scale is 0 and no entry is placed, on doubles
    for finite weights above 0 as in exact arithmetic for positive weights.
    Without sharding the constructor leaves an empty ring and sets the three
    gauges to 0; with sharding it reads [ring_[0]] of the empty ring, at line
    257. *)
Theorem zero_min_ring_size_leaves_empty_ring (hf : HashFunction) (uh : bool)
    (max_ring_size : Z) :
  (forall (hosts : list (Host * PrimFloat.float)) (mnw : PrimFloat.float),
      hosts <> [] ->
      Forall (fun entry => finite_positive (snd entry) = true) hosts ->
      finite_positive mnw = true ->
      build64 false hosts mnw 0 max_ring_size hf uh
      = Ret (mkRing [] [] rshift_to_shard_init,
             [(size_, 0); (min_hashes_per_host_, 0); (max_hashes_per_host_, 0)])
      /\ build64 true hosts mnw 0 max_ring_size hf uh = Undefined)
  /\ (forall (hosts : list (Host * double Exact.arith)) (mnw : Q),
        hosts <> [] ->
        Forall (fun entry => 0 < snd entry)%Q hosts ->
        (0 < mnw)%Q -> 0 <= max_ring_size ->
        build false hosts mnw 0 max_ring_size hf uh
        = Ret (mkRing [] [] rshift_to_shard_init,
               [(size_, 0); (min_hashes_per_host_, 0); (max_hashes_per_host_, 0)])
        /\ build true hosts mnw 0 max_ring_size hf uh = Undefined).
Proof.
  split.
  - intros hosts mnw. apply binary64_zero_min_ring_size.
  - intros hosts mnw. apply exact_zero_min_ring_size.
Qed.

End ZeroScale.

Lemma two_hosts_finite_positive :
  Forall (fun entry : Example.Host * PrimFloat.float =>
            finite_positive (snd entry) = true) Example.two_hosts.
Proof. repeat constructor. Qed.

Lemma zero_min_ring_size_leaves_empty_ring_witness :
  (Example.build false Example.two_hosts Example.half 0 8 XX_HASH true
   = Ret (mkRing [] [] Example.rshift_to_shard_init,
          [(size_, 0); (min_hashes_per_host_, 0); (max_hashes_per_host_, 0)])
   /\ Example.build true Example.two_hosts Example.half 0 8 XX_HASH true = Undefined)
  /\ (Example.build_exact false Example.two_hosts_exact (1 # 2) 0 8 XX_HASH true
      = Ret (mkRing [] [] Example.rshift_to_shard_init,
             [(size_, 0); (min_hashes_per_host_, 0); (max_hashes_per_host_, 0)])
      /\ Example.build_exact true Example.two_hosts_exact (1 # 2) 0 8 XX_HASH true
         = Undefined).
Proof.
  destruct (zero_min_ring_size_leaves_empty_ring Example.hashKey Example.xxHash64
              Example.murmurHash2_unused Example.rshift_to_shard_init XX_HASH true 8)
    as [Hdouble Hexact].
  split.
  - apply Hdouble.
    + discriminate.
    + exact two_hosts_finite_positive.
    + reflexivity.
  - apply Hexact.
    + discriminate.
    + exact two_hosts_exact_positive.
    + reflexivity.
    + lia.
Defined.

(** * The constructors of the load balancer *)

Section LoadBalancerValidation.

Variables DefaultMinRingSize DefaultMaxRingSize : Z.
Variable RingHash_HashFunction : Type.
Variable static_cast_HashFunction : RingHash_HashFunction -> HashFunction.

Local Abbreviation ctor :=
  (RingHashLoadBalancer_ctor DefaultMinRingSize DefaultMaxRingSize).
Local Abbreviation ctor_policy :=
  (RingHashLoadBalancer_ctor_policy DefaultMinRingSize DefaultMaxRingSize
     static_cast_HashFunction).

Lemma validate_ring_sizes_Constructed (lb lb' : RingHashLoadBalancer) :
  validate_ring_sizes lb = Constructed lb' ->
  lb' = lb /\ min_ring_size_ lb <= max_ring_size_ lb.
Proof.
  unfold validate_ring_sizes.
  destruct (Z.ltb_spec (max_ring_size_ lb) (min_ring_size_ lb)); [discriminate |].
  intros [= <-]. auto.
Qed.

Lemma validate_ring_sizes_Thrown (lb : RingHashLoadBalancer) (what : string) :
  validate_ring_sizes lb = Thrown what ->
  max_ring_size_ lb < min_ring_size_ lb
  /\ what = ring_size_error (min_ring_size_ lb) (max_ring_size_ lb).
Proof.
  unfold validate_ring_sizes.
  destruct (Z.ltb_spec (max_ring_size_ lb) (min_ring_size_ lb)); [| discriminate].
  intros [= <-]. auto.
Qed.


End LoadBalancerValidation.

